(** * dummy_data: the tag evaluator of [dummy_data/evaluators.py]

    A shallow embedding of [evaluate_parsed] and of its three local
    functions [call_function], [evaluate_object] and [evaluate_array],
    together with the two regular expressions [TAG_PATTERN] and
    [ARG_PATTERN] the evaluator is built on.

    Python values are the inductive type [node]; a Python [str] is a Rocq
    [string] whose characters are the code points below 256; the calls into
    the [functions] module and into deferred controller values are effects
    of a state-and-exception monad over an arbitrary world [W]. *)

From Stdlib Require Import String Ascii ZArith Lia Bool Arith.
From Stdlib Require Import DecimalString List Sorted.
Import ListNotations.

Open Scope string_scope.
Open Scope list_scope.
Open Scope nat_scope.

(* ================================================================== *)
(** * Characters and the classes of [re] *)
(* ================================================================== *)

Module Chars.

Definition code (c : ascii) : nat := nat_of_ascii c.

Definition between (lo hi : nat) (c : ascii) : bool :=
  (lo <=? code c) && (code c <=? hi).

(** [\s] on the code points below 256. *)
Definition is_space (c : ascii) : bool :=
  between 9 13 c || between 28 32 c || (code c =? 133) || (code c =? 160).

(** [\S] *)
Definition is_nonspace (c : ascii) : bool := negb (is_space c).

(** [\d] *)
Definition is_digit (c : ascii) : bool := between 48 57 c.

(** [\w] on the code points below 256. *)
Definition is_word (c : ascii) : bool :=
  is_digit c || between 65 90 c || (code c =? 95) || between 97 122 c
  || (code c =? 170) || between 178 179 c || (code c =? 181)
  || between 185 186 c || between 188 190 c || between 192 214 c
  || between 216 246 c || between 248 255 c.

(** The double quote and the backslash. *)
Definition is_dquote (c : ascii) : bool := code c =? 34.
Definition is_backslash (c : ascii) : bool := code c =? 92.

Fixpoint take_while (p : ascii -> bool) (l : list ascii) : list ascii :=
  match l with
  | [] => []
  | c :: t => if p c then c :: take_while p t else []
  end.

Fixpoint drop_while (p : ascii -> bool) (l : list ascii) : list ascii :=
  match l with
  | [] => []
  | c :: t => if p c then drop_while p t else l
  end.

(** [(?!\S)]: the next character, if any, is white space. *)
Definition at_space_or_end (l : list ascii) : bool :=
  match l with
  | [] => true
  | c :: _ => is_space c
  end.

End Chars.

Import Chars.

(* ================================================================== *)
(** * TAG_PATTERN *)
(* ================================================================== *)

(** The match object, with the fields [call_function] reads:
    [match.start()], [match.end()], [match.string] and the two named
    groups. *)
Record tag_match : Type := TagMatch {
  m_start : nat;
  m_end : nat;
  m_string : string;
  m_function : string;
  m_args : string
}.

Module TAG_PATTERN.

(** [\s* %\}]: the close of a tag.  Giving white space back never helps,
    [%] is not white space. *)
Definition close_tag (l : list ascii) : option (list ascii) :=
  match drop_while is_space l with
  | "%"%char :: "}"%char :: rest => Some rest
  | _ => None
  end.

(** [(?: \s* [^\s]+ )*?] followed by the close of the tag, explored in the
    order of the backtracking matcher: the lazy star first tries to leave
    the loop; otherwise it runs the body once more, [\s*] and [[^\s]+] both
    greedy, and hands back one character of the run at a time.  The result
    is the text of group [args] and what follows the close. *)
Fixpoint tag_args (fuel : nat) (l : list ascii)
  : option (list ascii * list ascii) :=
  match fuel with
  | 0 => None
  | S fuel' =>
    match close_tag l with
    | Some rest => Some ([], rest)
    | None =>
      let ws := take_while is_space l in
      let l1 := drop_while is_space l in
      let run := take_while is_nonspace l1 in
      (fix shrink (k : nat) : option (list ascii * list ascii) :=
         match k with
         | 0 => None
         | S k' =>
           match tag_args fuel' (skipn k l1) with
           | Some (a, rest) => Some (ws ++ firstn k l1 ++ a, rest)
           | None => shrink k'
           end
         end) (length run)
    end
  end.

(** The pattern tried at the head of [l]:
    [\{% \s* (?P<function> \b\w+\b) (?P<args> ...)? \s* %\}].
    The name is the whole run of word characters: a shorter one is not
    followed by a word boundary, and white space is not a word character. *)
Definition match_here (l : list ascii)
  : option (string * string * list ascii) :=
  match l with
  | "{"%char :: "%"%char :: l1 =>
    let l2 := drop_while is_space l1 in
    let name := take_while is_word l2 in
    let l3 := drop_while is_word l2 in
    match name with
    | [] => None
    | _ :: _ =>
      match tag_args (S (length l3)) l3 with
      | Some (a, rest) =>
          Some (string_of_list_ascii name, string_of_list_ascii a, rest)
      | None => None
      end
    end
  | _ => None
  end.

Definition make_match (whole : string) (pos : nat) (l : list ascii)
  (r : string * string * list ascii) : tag_match :=
  let '(f, a, rest) := r in
  {| m_start := pos;
     m_end := pos + (length l - length rest);
     m_string := whole;
     m_function := f;
     m_args := a |}.

(** [TAG_PATTERN.search]: the leftmost position at which the pattern
    matches. *)
Fixpoint search_from (whole : string) (pos : nat) (l : list ascii)
  : option tag_match :=
  match match_here l with
  | Some r => Some (make_match whole pos l r)
  | None =>
    match l with
    | [] => None
    | _ :: t => search_from whole (S pos) t
    end
  end.

Definition search (s : string) : option tag_match :=
  search_from s 0 (list_ascii_of_string s).

(** The successive matches [re.sub] visits: leftmost first, the scan
    resuming where the previous match ended ([skip] characters further).
    A match of this pattern is never empty. *)
Fixpoint finditer_from (whole : string) (pos skip : nat) (l : list ascii)
  : list tag_match :=
  match l with
  | [] => []
  | _ :: t =>
    match skip with
    | S k => finditer_from whole (S pos) k t
    | 0 =>
      match match_here l with
      | Some r =>
          make_match whole pos l r
          :: finditer_from whole (S pos) (length l - length (snd r) - 1) t
      | None => finditer_from whole (S pos) 0 t
      end
    end
  end.

Definition finditer (s : string) : list tag_match :=
  finditer_from s 0 0 (list_ascii_of_string s).

End TAG_PATTERN.

(* ================================================================== *)
(** * ARG_PATTERN *)
(* ================================================================== *)

Module ARG_PATTERN.

(** First alternative, after its two look-behinds:
    [-? (?=[1-9]|0(?!\d)) \d+ (?:\.\d+)? (?:[eE][+-]?\d+)? (?![:/\d]) (?!\S)].
    Every greedy piece keeps all it took: what it would hand back is a
    digit, a dot or an exponent letter, and the closing look-aheads refuse
    each of them. *)
Definition number (l : list ascii) : option (list ascii) :=
  let l1 := match l with
            | "-"%char :: t => t
            | _ => l
            end in
  let leading :=
    match l1 with
    | c :: t =>
        between 49 57 c
        || ((code c =? 48)
            && match t with
               | d :: _ => negb (is_digit d)
               | [] => true
               end)
    | [] => false
    end in
  if leading then
    let l2 := drop_while is_digit l1 in
    let l3 :=
      match l2 with
      | "."%char :: t =>
          match take_while is_digit t with
          | [] => l2
          | _ :: _ => drop_while is_digit t
          end
      | _ => l2
      end in
    let l4 :=
      match l3 with
      | e :: t =>
          if (code e =? 101) || (code e =? 69) then
            let t' := match t with
                      | "+"%char :: u => u
                      | "-"%char :: u => u
                      | _ => t
                      end in
            match take_while is_digit t' with
            | [] => l3
            | _ :: _ => drop_while is_digit t'
            end
          else l3
      | [] => l3
      end in
    let no_date :=
      match l4 with
      | c :: _ => negb ((code c =? 58) || (code c =? 47) || is_digit c)
      | [] => true
      end in
    if no_date && at_space_or_end l4 then Some l4 else None
  else None.

Definition is_escape (c : ascii) : bool :=
  is_dquote c || is_backslash c
  || existsb (fun n => code c =? n) [98; 102; 110; 114; 116; 47].

Definition is_hex (c : ascii) : bool := is_digit c || between 97 102 c.

Definition or_else {A : Type} (a b : option A) : option A :=
  match a with
  | Some _ => a
  | None => b
  end.

(** The body and the close of the second alternative, after the opening
    quote (lines 36 to 41 of the source).  The lazy star first tries to
    close, with a quote that white space or the end follows; the four
    alternatives of the body are tried in their order: a character that
    is neither a quote nor a backslash, a backslash and one of the escape
    characters, a backslash, [u] and four lower-case hexadecimal digits,
    three backslashes and a quote. *)
Fixpoint quoted_body (l : list ascii) : option (list ascii) :=
  let close :=
    match l with
    | q :: t => if is_dquote q && at_space_or_end t then Some t else None
    | [] => None
    end in
  let plain :=
    match l with
    | c :: t =>
        if negb (is_dquote c) && negb (is_backslash c)
        then quoted_body t else None
    | [] => None
    end in
  let escaped :=
    match l with
    | b :: c :: t =>
        if is_backslash b && is_escape c then quoted_body t else None
    | _ => None
    end in
  let unicode :=
    match l with
    | b :: "u"%char :: h1 :: h2 :: h3 :: h4 :: t =>
        if is_backslash b && is_hex h1 && is_hex h2 && is_hex h3
           && is_hex h4
        then quoted_body t else None
    | _ => None
    end in
  let double_escaped :=
    match l with
    | b1 :: b2 :: b3 :: q :: t =>
        if is_backslash b1 && is_backslash b2 && is_backslash b3
           && is_dquote q
        then quoted_body t else None
    | _ => None
    end in
  or_else close
    (or_else plain (or_else escaped (or_else unicode double_escaped))).

(** Second alternative, after its look-behind. *)
Definition quoted (l : list ascii) : option (list ascii) :=
  match l with
  | q :: t => if is_dquote q then quoted_body t else None
  | [] => None
  end.

(** Third alternative, after its look-behind (lines 44 and 45 of the
    source): characters that are neither a quote, a backslash nor white
    space.  The lazy plus stops at the first place where white space or the end
    follows, which is the end of the word; every character of the word
    has to be allowed. *)
Definition bare (l : list ascii) : option (list ascii) :=
  let word := take_while is_nonspace l in
  match word with
  | [] => None
  | _ :: _ =>
      if forallb (fun c => negb (is_dquote c) && negb (is_backslash c)) word
      then Some (drop_while is_nonspace l) else None
  end.

(** The three alternatives in their order. *)
Definition match_here (l : list ascii) : option (list ascii) :=
  or_else (number l) (or_else (quoted l) (bare l)).

(** [ARG_PATTERN.findall]: the pattern has no group, so the result is the
    list of the matched texts.  [after_space] is the look-behind
    [(?<!\S)] that opens every alternative (it implies [(?<![:/\d])]);
    no alternative matches the empty string. *)
Fixpoint findall_from (after_space : bool) (skip : nat) (l : list ascii)
  : list string :=
  match l with
  | [] => []
  | c :: t =>
    match skip with
    | S k => findall_from (is_space c) k t
    | 0 =>
      if after_space then
        match match_here l with
        | Some rest =>
            string_of_list_ascii (firstn (length l - length rest) l)
            :: findall_from (is_space c) (length l - length rest - 1) t
        | None => findall_from (is_space c) 0 t
        end
      else findall_from (is_space c) 0 t
    end
  end.

Definition findall (s : string) : list string :=
  findall_from true 0 (list_ascii_of_string s).

End ARG_PATTERN.

(** [x[1:-1]] if [x] starts and ends with a double quote, else [x]; a
    token is never empty. *)
Definition unquote (x : string) : string :=
  match list_ascii_of_string x with
  | q :: t =>
      if is_dquote q && is_dquote (last (q :: t) q)
      then string_of_list_ascii (removelast t)
      else x
  | [] => x
  end.

(** The positional arguments [call_function] passes on. *)
Definition tag_arguments (m : tag_match) : list string :=
  map unquote (ARG_PATTERN.findall (m_args m)).

(* ================================================================== *)
(** * Values, exceptions and effects *)
(* ================================================================== *)

(** The Python values a document is made of and a function may return:
    [None], booleans, integers, strings, lists, dictionaries (their pairs
    in insertion order) and callables.  A callable carries its attribute
    [parent_function], when it has one, and the identity of the object.
    Floating-point numbers are left out of the embedding. *)
#[warnings="-register-all"]
Inductive node : Type :=
| NNone
| NBool (b : bool)
| NInt (z : Z)
| NStr (s : string)
| NList (items : list node)
| NDict (pairs : list (node * node))
| NCallable (parent_function : option string) (ident : nat).

(** Modelled from the spec: [DDEvaluatorException] is declared in
    [dummy_data/exceptions.py], which is not among the sources.  The
    specification has the errors of the evaluator as errors of their own
    kind, fatal to the call; the class is taken to be neither an
    [AttributeError] nor a [TypeError], so that neither handler of the
    evaluator catches it.  The other constructors are the exceptions of
    Python the evaluator handles or lets through. *)
Inductive exn : Type :=
| AttributeError (msg : string)
| TypeError (msg : string)
| DDEvaluatorException (msg : string)
| OtherException (name : string).

(** What a computation ends with: a value, an exception, or the end of
    the recursion budget of the embedding. *)
Inductive outcome (A : Type) : Type :=
| Ret (a : A)
| Raise (e : exn)
| OutOfFuel.

Arguments Ret {A} a.
Arguments Raise {A} e.
Arguments OutOfFuel {A}.

(** Computations over a world [W]: whatever the registered functions and
    the controllers read and change (counters, random generators, ...).
    The world reached when an exception is raised is kept. *)
Definition M (W A : Type) : Type := W -> outcome A * W.

Definition ret {W A : Type} (a : A) : M W A := fun w => (Ret a, w).

Definition raise {W A : Type} (e : exn) : M W A := fun w => (Raise e, w).

Definition out_of_fuel {W A : Type} : M W A := fun w => (OutOfFuel, w).

Definition bind {W A B : Type} (c : M W A) (k : A -> M W B) : M W B :=
  fun w =>
    match c w with
    | (Ret a, w') => k a w'
    | (Raise e, w') => (Raise e, w')
    | (OutOfFuel, w') => (OutOfFuel, w')
    end.

Notation "x <- c ;; k" := (bind c (fun x => k))
  (at level 61, c at next level, right associativity).

(** [try: c except AttributeError: handler] *)
Definition except_AttributeError {W A : Type} (c handler : M W A) : M W A :=
  fun w =>
    match c w with
    | (Raise (AttributeError _), w') => handler w'
    | r => r
    end.

(** [try: c except TypeError: handler] *)
Definition except_TypeError {W A : Type} (c handler : M W A) : M W A :=
  fun w =>
    match c w with
    | (Raise (TypeError _), w') => handler w'
    | r => r
    end.

(** The signature of [evaluate_parsed]. *)
Definition evaluator (W : Type) : Type :=
  node -> bool -> option nat -> M W node.

(** An attribute of the module [functions], called with the tokens as
    positional arguments and with the keyword [iteration]. *)
Definition pyfunction (W : Type) : Type :=
  list string -> option nat -> M W node.

(** What the evaluator is run against: the module [functions], looked up
    by name; the second phase of a callable, [item(x, evaluate_parsed)],
    by the identity of the object; and the text [str] gives for lists,
    dictionaries and callables. *)
Record runtime (W : Type) : Type := Runtime {
  functions : string -> option (pyfunction W);
  invoke : nat -> node -> evaluator W -> M W node;
  object_str : node -> string
}.

Arguments functions {W} r _.
Arguments invoke {W} r _ _ _ _.
Arguments object_str {W} r _.

(** [hasattr(x, '__call__')] *)
Definition has_call (x : node) : bool :=
  match x with
  | NCallable _ _ => true
  | _ => false
  end.

(** [str(value)] *)
Definition py_str {W : Type} (rt : runtime W) (value : node) : string :=
  match value with
  | NNone => "None"
  | NBool true => "True"
  | NBool false => "False"
  | NInt z => NilZero.string_of_int (Z.to_int z)
  | NStr s => s
  | _ => object_str rt value
  end.

(** ** Dictionaries *)

(** Lists and dictionaries cannot be keys. *)
Definition hashable (k : node) : bool :=
  match k with
  | NList _ | NDict _ => false
  | _ => true
  end.

(** Equality of two keys: [True == 1] and [False == 0]; a callable is
    equal to itself only. *)
Definition key_eqb (a b : node) : bool :=
  match a, b with
  | NNone, NNone => true
  | NBool x, NBool y => Bool.eqb x y
  | NBool x, NInt z => (z =? Z.b2z x)%Z
  | NInt z, NBool x => (z =? Z.b2z x)%Z
  | NInt x, NInt y => (x =? y)%Z
  | NStr x, NStr y => String.eqb x y
  | NCallable _ i, NCallable _ j => i =? j
  | _, _ => false
  end.

(** [d[k] = v] on an [OrderedDict]: an equal key keeps its place and its
    key object and takes the new value; a new key goes last. *)
Fixpoint setitem (d : list (node * node)) (k v : node)
  : list (node * node) :=
  match d with
  | [] => [(k, v)]
  | (k', v') :: d' =>
      if key_eqb k' k then (k', v) :: d' else (k', v') :: setitem d' k v
  end.

(** What [list.extend] iterates over: the items of a list, the
    characters of a string, the keys of a dictionary; nothing else of
    [node] is iterable. *)
Definition iterate (r : node) : option (list node) :=
  match r with
  | NList l => Some l
  | NStr s =>
      Some (map (fun c => NStr (String c EmptyString))
                (list_ascii_of_string s))
  | NDict d => Some (map fst d)
  | _ => None
  end.

(* ================================================================== *)
(** * re.sub *)
(* ================================================================== *)

Module Re.

(** [''.join(pieces)]: every piece has to be a string. *)
Fixpoint join (pieces : list node) : option string :=
  match pieces with
  | [] => Some EmptyString
  | NStr s :: t =>
      match join t with
      | Some r => Some (s ++ r)%string
      | None => None
      end
  | _ => None
  end.

Section Sub.
Context {W : Type} (repl : tag_match -> M W node) (s : string).

(** The loop of [re.sub(pattern, repl, s)] for a callable [repl]: the
    text between two matches and what [repl] returns are collected, a
    returned [None] is dropped, and the pieces are joined at the end,
    which is where a piece that is not a string raises [TypeError].
    [i] is the end of the previous match. *)
Fixpoint sub_loop (i : nat) (ms : list tag_match) (pieces : list node)
  : M W node :=
  match ms with
  | [] =>
      match join (pieces ++ [NStr (substring i (String.length s - i) s)]) with
      | Some r => ret (NStr r)
      | None => raise (TypeError "sequence item: expected str instance")
      end
  | m :: ms' =>
      item <- repl m ;;
      let pieces := pieces ++ [NStr (substring i (m_start m - i) s)] in
      let pieces := match item with
                    | NNone => pieces
                    | _ => pieces ++ [item]
                    end in
      sub_loop (m_end m) ms' pieces
  end.

Definition sub : M W node := sub_loop 0 (TAG_PATTERN.finditer s) [].

End Sub.

End Re.

(* ================================================================== *)
(** * evaluate_parsed *)
(* ================================================================== *)

Section Evaluator.
Context {W : Type} (rt : runtime W).

Definition nonexistent (name : string) : exn :=
  DDEvaluatorException
    ("attempted call to non-existent function " ++ name)%string.

Definition illegal_location (name : string) : exn :=
  DDEvaluatorException
    ("function " ++ name ++ " called from illegal location")%string.

Definition end_of_array (name : string) : exn :=
  DDEvaluatorException
    ("invalid use of " ++ name ++ " function at end of array")%string.

Definition no_parent_function : exn :=
  AttributeError "object has no attribute 'parent_function'".

(** [call_function(match)], local to a call
    [evaluate_parsed(parsed, allow_callable, iteration)]. *)
Definition call_function (parsed : node) (allow_callable : bool)
  (iteration : option nat) (m : tag_match) : M W node :=
  let args := tag_arguments m in
  value <- except_AttributeError
             (match functions rt (m_function m) with
              | Some f => f args iteration
              | None => raise (AttributeError "module has no attribute")
              end)
             (raise (nonexistent (m_function m))) ;;
  if has_call parsed && negb allow_callable then
    raise (illegal_location (m_function m))
  else if negb (m_start m =? 0)
          || negb (m_end m =? String.length (m_string m)) then
    ret (NStr (py_str rt value))
  else ret value.

(** [evaluate_object(parsed_object)]: the loop over the pairs of
    [parsed_object], with [evaluated] built so far.  The right-hand side
    of the assignment, the value, is evaluated before the key. *)
Fixpoint evaluate_object (evaluate_parsed : evaluator W)
  (iteration : option nat) (parsed_object evaluated : list (node * node))
  : M W node :=
  match parsed_object with
  | [] => ret (NDict evaluated)
  | (k, v) :: rest =>
      value <- evaluate_parsed v false iteration ;;
      key <- evaluate_parsed k false iteration ;;
      if hashable key then
        evaluate_object evaluate_parsed iteration rest
          (setitem evaluated key value)
      else raise (TypeError "unhashable type")
  end.

(** [evaluate_array(parsed_array)]: the [while] loop, its state being
    [index], [evaluated] and, for [parsed_array], the items from [index]
    on: [parsed_array[index:]]. *)
Fixpoint evaluate_array (evaluate_parsed : evaluator W)
  (from_index : list node) (index : nat) (evaluated : list node)
  : M W node :=
  match from_index with
  | [] => ret (NList evaluated)
  | x :: after =>
      item <- evaluate_parsed x true (Some index) ;;
      match item with
      | NCallable tag c =>
          match after with
          | [] =>
              match tag with
              | Some name => raise (end_of_array name)
              | None => raise no_parent_function
              end
          | next :: after' =>
              match tag with
              | None => raise no_parent_function
              | Some name =>
                  if String.eqb "repeat" name then
                    r <- invoke rt c next evaluate_parsed ;;
                    match iterate r with
                    | Some more =>
                        evaluate_array evaluate_parsed after' (index + 2)
                          (evaluated ++ more)
                    | None => raise (TypeError "object is not iterable")
                    end
                  else if String.eqb "random" name then
                    invoke rt c (NList after) evaluate_parsed
                  else
                    evaluate_array evaluate_parsed after (index + 1)
                      evaluated
              end
          end
      | _ =>
          evaluate_array evaluate_parsed after (index + 1)
            (evaluated ++ [item])
      end
  end.

(** [evaluate_parsed(parsed, allow_callable, iteration)].  [fuel] bounds
    the depth of the recursion, the calls made by a controller through
    its callback included. *)
Fixpoint evaluate_parsed (fuel : nat) (parsed : node)
  (allow_callable : bool) (iteration : option nat) : M W node :=
  match fuel with
  | 0 => out_of_fuel
  | S fuel' =>
    match parsed with
    | NDict parsed_object =>
        evaluate_object (evaluate_parsed fuel') iteration parsed_object []
    | NList parsed_array =>
        evaluate_array (evaluate_parsed fuel') parsed_array 0 []
    | NStr s =>
        except_TypeError
          (Re.sub (call_function parsed allow_callable iteration) s)
          (match TAG_PATTERN.search s with
           | Some m => call_function parsed allow_callable iteration m
           | None => raise (AttributeError "'NoneType' has no group")
           end)
    | _ => ret parsed
    end
  end.

End Evaluator.

(* ================================================================== *)
(** * Vocabulary of the properties *)
(* ================================================================== *)

(** A tag that is the whole text: [match.start() == 0] and
    [match.end() == len(match.string)]. *)
Definition spans_whole (s : string) (m : tag_match) : Prop :=
  m_start m = 0 /\ m_end m = String.length s.

(** A text with a tag among literal text, or with several tags. *)
Definition embedded_tags (s : string) : Prop :=
  match TAG_PATTERN.finditer s with
  | [] => False
  | [m] => ~ spans_whole s m
  | _ :: _ :: _ => True
  end.

(** The text in which each span of [ms] is replaced by the text next to
    it in [texts], the text outside the spans being kept; [i] is where
    the previous span ended. *)
Fixpoint splice (s : string) (i : nat) (ms : list tag_match)
  (texts : list string) : string :=
  match ms, texts with
  | m :: ms', t :: texts' =>
      (substring i (m_start m - i) s ++ t ++ splice s (m_end m) ms' texts')
        %string
  | _, _ => substring i (String.length s - i) s
  end.

(** No key of [d] is equal to [k]. *)
Definition fresh_key (d : list (node * node)) (k : node) : bool :=
  negb (existsb (fun kv => key_eqb (fst kv) k) d).

(** The keys of [d] are pairwise different. *)
Fixpoint distinct_keys (d : list (node * node)) : bool :=
  match d with
  | [] => true
  | kv :: t =>
      negb (existsb (fun kv' => key_eqb (fst kv) (fst kv')) t)
      && distinct_keys t
  end.

(** The pairs of [out] put one after the other into an empty
    [OrderedDict]. *)
Definition inserted (out : list (node * node)) : list (node * node) :=
  fold_left (fun d kv => setitem d (fst kv) (snd kv)) out [].

(** A key as a document has it: [None], a boolean, an integer or a
    string. *)
Definition scalar_key (k : node) : bool :=
  match k with
  | NNone | NBool _ | NInt _ | NStr _ => true
  | _ => false
  end.

(** A document: mappings with scalar keys that are pairwise different,
    sequences, texts and other scalars; no callable. *)
Fixpoint is_document (d : node) : bool :=
  match d with
  | NCallable _ _ => false
  | NList items => forallb is_document items
  | NDict pairs =>
      forallb (fun kv => scalar_key (fst kv) && is_document (snd kv)) pairs
      && distinct_keys pairs
  | _ => true
  end.

(** No text of the document, key or value, holds a tag. *)
Fixpoint tag_free (d : node) : bool :=
  match d with
  | NStr s =>
      match TAG_PATTERN.search s with
      | Some _ => false
      | None => true
      end
  | NList items => forallb tag_free items
  | NDict pairs =>
      forallb (fun kv => tag_free (fst kv) && tag_free (snd kv)) pairs
  | _ => true
  end.

(** The nesting depth of a document. *)
Fixpoint depth (d : node) : nat :=
  match d with
  | NList items => S (fold_right (fun x n => Nat.max (depth x) n) 0 items)
  | NDict pairs =>
      S (fold_right
           (fun kv n => Nat.max (Nat.max (depth (fst kv)) (depth (snd kv))) n)
           0 pairs)
  | _ => 1
  end.

Section Executions.
Context {W : Type} (rt : runtime W).

(** The functions of the tags [ms] are called one after the other, from
    world [w], and return the values [vs]. *)
Inductive calls_return (iteration : option nat)
  : list tag_match -> W -> list node -> W -> Prop :=
| calls_nil : forall w, calls_return iteration [] w [] w
| calls_cons : forall m ms f w v w1 vs w2,
    functions rt (m_function m) = Some f ->
    f (tag_arguments m) iteration w = (Ret v, w1) ->
    calls_return iteration ms w1 vs w2 ->
    calls_return iteration (m :: ms) w (v :: vs) w2.

(** The loop of [evaluate_array] goes over the items [items], from
    [index] on with [evaluated] built so far, and reaches their end:
    each item evaluates to a value that is not callable and is appended,
    or to a [repeat] controller, which takes the item after it and whose
    result is appended. *)
Inductive consumed (ev : evaluator W)
  : list node -> nat -> list node -> W -> list node -> W -> Prop :=
| consumed_nil : forall index evaluated w,
    consumed ev [] index evaluated w evaluated w
| consumed_item : forall x items index evaluated w v w1 evaluated' w2,
    ev x true (Some index) w = (Ret v, w1) ->
    has_call v = false ->
    consumed ev items (index + 1) (evaluated ++ [v]) w1 evaluated' w2 ->
    consumed ev (x :: items) index evaluated w evaluated' w2
| consumed_repeat : forall x next items index evaluated w c w1 r more w2
                           evaluated' w3,
    ev x true (Some index) w = (Ret (NCallable (Some "repeat") c), w1) ->
    invoke rt c next ev w1 = (Ret r, w2) ->
    iterate r = Some more ->
    consumed ev items (index + 2) (evaluated ++ more) w2 evaluated' w3 ->
    consumed ev (x :: next :: items) index evaluated w evaluated' w3.

(** The pairs of a mapping are evaluated one after the other under
    [iteration], the value of a pair before its key, and give the pairs
    [out]. *)
Inductive pairs_evaluated (ev : evaluator W) (iteration : option nat)
  : list (node * node) -> W -> list (node * node) -> W -> Prop :=
| pairs_nil : forall w, pairs_evaluated ev iteration [] w [] w
| pairs_cons : forall k v rest w value w1 key w2 out w3,
    ev v false iteration w = (Ret value, w1) ->
    ev k false iteration w1 = (Ret key, w2) ->
    hashable key = true ->
    pairs_evaluated ev iteration rest w2 out w3 ->
    pairs_evaluated ev iteration ((k, v) :: rest) w ((key, value) :: out) w3.

End Executions.

(** [ev] returns [x] as it is and leaves the world as it is. *)
Definition unchanged_by {W : Type} (ev : evaluator W) (x : node) : Prop :=
  forall allow iteration w, ev x allow iteration w = (Ret x, w).

(** ** The reading of a mapping in which no iteration index applies *)

(** [evaluate_object] as the specification words it: every key and
    every value is evaluated with the absence marker, whatever the
    iteration index of the mapping itself. *)
Definition evaluate_object_absent {W : Type} (evaluate_parsed : evaluator W)
  (parsed_object : list (node * node)) : M W node :=
  evaluate_object evaluate_parsed None parsed_object [].

(* ================================================================== *)
(** * A small module of functions to run the evaluator against *)
(* ================================================================== *)

(** The module [functions] of the repository is not among the sources
    and the evaluator does not depend on what it holds.  The functions
    below are stand-ins with the shape the specification gives them, on
    which the properties are run. *)
Module Sample.

(** The world is a counter of the calls made so far. *)
Definition world : Type := nat.

Definition nat_of_digits (s : string) : nat :=
  fold_left (fun n c => 10 * n + (code c - 48)) (list_ascii_of_string s) 0.

(** [seq] returns 7; [index] returns the iteration index it is given, or
    -1 without one; [count] returns the number of calls made before it;
    [null] returns [None]; [name] returns a string; [repeat n] and
    [random] return deferred controller values. *)
Definition seq : pyfunction world :=
  fun _ _ w => (Ret (NInt 7), S w).

Definition index : pyfunction world :=
  fun _ iteration w =>
    (Ret (NInt (match iteration with
                | Some i => Z.of_nat i
                | None => (-1)%Z
                end)), S w).

Definition count : pyfunction world :=
  fun _ _ w => (Ret (NInt (Z.of_nat w)), S w).

Definition null : pyfunction world :=
  fun _ _ w => (Ret NNone, S w).

Definition name : pyfunction world :=
  fun _ _ w => (Ret (NStr "Ada"), S w).

Definition repeat : pyfunction world :=
  fun args _ w =>
    (Ret (NCallable (Some "repeat") (S (nat_of_digits (hd "0" args)))), S w).

Definition random : pyfunction world :=
  fun _ _ w => (Ret (NCallable (Some "random") 0), S w).

Definition lookup (name' : string) : option (pyfunction world) :=
  if String.eqb name' "seq" then Some seq
  else if String.eqb name' "index" then Some index
  else if String.eqb name' "count" then Some count
  else if String.eqb name' "null" then Some null
  else if String.eqb name' "name" then Some name
  else if String.eqb name' "repeat" then Some repeat
  else if String.eqb name' "random" then Some random
  else None.

(** The evaluated copies of [template], one per iteration index. *)
Fixpoint copies (ev : evaluator world) (template : node) (i n : nat)
  : M world (list node) :=
  match n with
  | 0 => ret []
  | S n' =>
      v <- ev template false (Some i) ;;
      vs <- copies ev template (S i) n' ;;
      ret (v :: vs)
  end.

(** The evaluated forms of all of [items]. *)
Fixpoint every (ev : evaluator world) (items : list node)
  : M world (list node) :=
  match items with
  | [] => ret []
  | x :: t =>
      v <- ev x false None ;;
      vs <- every ev t ;;
      ret (v :: vs)
  end.

(** The second phase: the object [S n] is a [repeat n], the object [0] a
    [random] that keeps the whole remainder. *)
Definition second_phase (c : nat) (x : node) (ev : evaluator world)
  : M world node :=
  match c with
  | S n => vs <- copies ev x 0 n ;; ret (NList vs)
  | 0 =>
      match x with
      | NList items => vs <- every ev items ;; ret (NList vs)
      | _ => raise (TypeError "not a list")
      end
  end.

Definition rt : runtime world :=
  {| functions := lookup;
     invoke := second_phase;
     object_str := fun _ => "<object>" |}.

Definition run (parsed : node) : outcome node * world :=
  evaluate_parsed rt 16 parsed false None 0.

End Sample.

(* ================================================================== *)
(** * Vocabulary of the properties of the two patterns *)
(* ================================================================== *)

Definition all_space (l : list ascii) : bool := forallb is_space l.

Definition all_nonspace (l : list ascii) : bool := forallb is_nonspace l.

Definition all_word (l : list ascii) : bool := forallb is_word l.

(** Somewhere in [l] the character [a] is directly followed by [b]. *)
Fixpoint occurs2 (a b : ascii) (l : list ascii) : bool :=
  match l with
  | [] => false
  | x :: t =>
      match t with
      | y :: _ => (Ascii.eqb x a && Ascii.eqb y b) || occurs2 a b t
      | [] => false
      end
  end.

(** [w] opens with the two characters that close a tag. *)
Definition opens_with_close (w : list ascii) : bool :=
  match w with
  | x :: y :: _ => Ascii.eqb x "%" && Ascii.eqb y "}"
  | _ => false
  end.

(** The text of arguments written one after the other, each with the
    white space before it. *)
Definition pieces_text (pieces : list (list ascii * list ascii))
  : list ascii :=
  concat (map (fun p => fst p ++ snd p) pieces).

(** An argument of a tag that [TAG_PATTERN] keeps whole: white space
    before it, no white space in it, and it does not open with the close
    of a tag. *)
Definition tag_piece (p : list ascii * list ascii) : bool :=
  match fst p, snd p with
  | _ :: _, _ :: _ =>
      all_space (fst p) && all_nonspace (snd p)
      && negb (opens_with_close (snd p))
  | _, _ => false
  end.

(** The text of a tag: the opening, the name of the function, the
    arguments and the close, with the white space between them. *)
Definition tag_text (ws0 name : list ascii)
  (pieces : list (list ascii * list ascii)) (ws1 : list ascii)
  : list ascii :=
  "{"%char :: "%"%char :: ws0 ++ name ++ pieces_text pieces ++ ws1
    ++ ["%"%char; "}"%char].

(** What follows an argument: nothing, or white space first. *)
Definition space_next (l : list ascii) : Prop :=
  match l with
  | [] => True
  | c :: _ => is_space c = true
  end.

(** One blank. *)
Definition sp : list ascii := [" "%char].

(** The case of one alternative of the body of a quoted token, given
    as the hypothesis [H] that it matched: the shape of the text is
    opened up to the recursive call. *)
Ltac body_piece H :=
  repeat match type of H with
         | context [match ?x with [] => _ | _ :: _ => _ end] => destruct x
         | context [if ?b then _ else _] => destruct b
         end;
  try discriminate;
  right; eexists; split; [exact H | cbn [length]; lia].

(** A character of a number of [ARG_PATTERN]: a digit, a sign, the dot
    or the letter of the exponent. *)
Definition number_char (c : ascii) : bool :=
  is_digit c || existsb (fun n => code c =? n) [45; 43; 46; 101; 69].

(** [l] is [l'] after characters of a number. *)
Definition after_number_chars (l l' : list ascii) : Prop :=
  exists p, l = p ++ l' /\ forallb number_char p = true.

(** A character of a bare token of [ARG_PATTERN]. *)
Definition plain_char (c : ascii) : bool :=
  is_nonspace c && negb (is_dquote c) && negb (is_backslash c).

(** An argument that [ARG_PATTERN] takes as a bare token: white space
    before it and only plain characters in it. *)
Definition bare_piece (p : list ascii * list ascii) : bool :=
  match fst p, snd p with
  | _ :: _, _ :: _ => all_space (fst p) && forallb plain_char (snd p)
  | _, _ => false
  end.

(** An argument as it is written in a tag: a bare token, or a text
    between double quotes. *)
Inductive argument : Type :=
| Bare (w : list ascii)
| Quoted (body : list ascii).

Definition quote_char : ascii := "034"%char.

Definition written (a : argument) : list ascii :=
  match a with
  | Bare w => w
  | Quoted body => quote_char :: body ++ [quote_char]
  end.

(** What the function is to receive for it. *)
Definition passed (a : argument) : string :=
  string_of_list_ascii
    match a with
    | Bare w => w
    | Quoted body => body
    end.

(** A character of a quoted text that needs no escape. *)
Definition unescaped_char (c : ascii) : bool :=
  negb (is_dquote c) && negb (is_backslash c).

(** White space before the argument; a bare token is not empty and made
    of plain characters, a quoted text has neither quote nor
    backslash. *)
Definition well_written (p : list ascii * argument) : bool :=
  match fst p with
  | [] => false
  | _ :: _ => all_space (fst p)
  end
  && match snd p with
     | Bare w =>
         match w with
         | [] => false
         | _ :: _ => forallb plain_char w
         end
     | Quoted body => forallb unescaped_char body
     end.

Definition arguments_text (args : list (list ascii * argument))
  : list ascii :=
  concat (map (fun p => fst p ++ written (snd p)) args).

(* ================================================================== *)
(** * Vocabulary of the further properties of the evaluator *)
(* ================================================================== *)

(** [d[k]]: the value of the pair whose key is equal to [k], if any. *)
Fixpoint getitem (d : list (node * node)) (k : node) : option node :=
  match d with
  | [] => None
  | (k', v) :: d' => if key_eqb k' k then Some v else getitem d' k
  end.

(** What [call_function] raises when the function of the tag raises
    [e]. *)
Definition raised_by_call (name : string) (e : exn) : exn :=
  match e with
  | AttributeError _ => nonexistent name
  | _ => e
  end.

Definition is_TypeError (e : exn) : bool :=
  match e with
  | TypeError _ => true
  | _ => false
  end.

Definition is_AttributeError (e : exn) : bool :=
  match e with
  | AttributeError _ => true
  | _ => false
  end.

Section FurtherExecutions.
Context {W : Type}.

(** The items [items], at the positions from [index] on, evaluate one
    after the other to the values [vs], none of them callable. *)
Inductive items_evaluated (ev : evaluator W)
  : nat -> list node -> W -> list node -> W -> Prop :=
| items_nil : forall index w, items_evaluated ev index [] w [] w
| items_cons : forall index x items w v w1 vs w2,
    ev x true (Some index) w = (Ret v, w1) ->
    has_call v = false ->
    items_evaluated ev (S index) items w1 vs w2 ->
    items_evaluated ev index (x :: items) w (v :: vs) w2.

End FurtherExecutions.

(** ** Functions that fail, to run the further properties against *)

Module Faulty.

Definition world : Type := nat.

Definition attr : pyfunction world :=
  fun _ _ w => (Raise (AttributeError "no such attribute"), S w).

Definition boom : pyfunction world :=
  fun _ _ w => (Raise (OtherException "ValueError"), S w).

Definition typeerr : pyfunction world :=
  fun _ _ w => (Raise (TypeError "unsupported operand"), S w).

Definition shuffle : pyfunction world :=
  fun _ _ w => (Ret (NCallable (Some "shuffle") 7), S w).

Definition anon : pyfunction world :=
  fun _ _ w => (Ret (NCallable None 8), S w).

Definition empty_list : pyfunction world :=
  fun _ _ w => (Ret (NList []), S w).

(** [join] returns its arguments, separated by commas. *)
Definition join : pyfunction world :=
  fun args _ w => (Ret (NStr (String.concat "," args)), S w).

(** [badrepeat] returns a controller of origin [repeat] whose second
    phase refuses a template that is not a list. *)
Definition badrepeat : pyfunction world :=
  fun _ _ w => (Ret (NCallable (Some "repeat") 0), S w).

(** [five] returns the integer 5. *)
Definition five : pyfunction world :=
  fun _ _ w => (Ret (NInt 5), S w).

Definition lookup (name : string) : option (pyfunction world) :=
  if String.eqb name "attr" then Some attr
  else if String.eqb name "boom" then Some boom
  else if String.eqb name "typeerr" then Some typeerr
  else if String.eqb name "shuffle" then Some shuffle
  else if String.eqb name "anon" then Some anon
  else if String.eqb name "empty_list" then Some empty_list
  else if String.eqb name "join" then Some join
  else if String.eqb name "five" then Some five
  else if String.eqb name "badrepeat" then Some badrepeat
  else Sample.lookup name.

Definition rt : runtime world :=
  {| functions := lookup;
     invoke := Sample.second_phase;
     object_str := fun _ => "<object>" |}.

End Faulty.

(* ================================================================== *)
(** * Facts about strings and about TAG_PATTERN *)
(* ================================================================== *)

Lemma append_empty_r (s : string) : (s ++ "")%string = s.
Proof.
  induction s as [| c s IH]; simpl; [reflexivity | now rewrite IH].
Qed.

Lemma append_assoc (a b c : string) :
  ((a ++ b) ++ c)%string = (a ++ (b ++ c))%string.
Proof.
  induction a as [| x a IH]; simpl; [reflexivity | now rewrite IH].
Qed.

Lemma substring_all (s : string) : substring 0 (String.length s) s = s.
Proof.
  induction s as [| c s IH]; simpl; [reflexivity | now rewrite IH].
Qed.

Lemma length_list_ascii (s : string) :
  length (list_ascii_of_string s) = String.length s.
Proof.
  induction s as [| c s IH]; simpl; [reflexivity | now rewrite IH].
Qed.

Module TagFacts.
Import TAG_PATTERN.

Lemma drop_while_length (p : ascii -> bool) (l : list ascii) :
  length (drop_while p l) <= length l.
Proof.
  induction l as [| c t IH]; simpl; [lia |].
  destruct (p c); simpl; lia.
Qed.

Lemma close_tag_inv (l rest : list ascii) :
  close_tag l = Some rest ->
  drop_while is_space l = "%"%char :: "}"%char :: rest.
Proof.
  unfold close_tag.
  destruct (drop_while is_space l) as [| a [| b r]]; intros H.
  - discriminate.
  - destruct a as [[] [] [] [] [] [] [] []]; discriminate.
  - destruct a as [[] [] [] [] [] [] [] []]; try discriminate.
    destruct b as [[] [] [] [] [] [] [] []]; try discriminate.
    now injection H as <-.
Qed.

Lemma close_tag_length (l rest : list ascii) :
  close_tag l = Some rest -> length rest + 2 <= length l.
Proof.
  intros H. apply close_tag_inv in H.
  pose proof (drop_while_length is_space l) as Hlen.
  rewrite H in Hlen. simpl in Hlen. lia.
Qed.

Lemma take_while_length (p : ascii -> bool) (l : list ascii) :
  length (take_while p l) <= length l.
Proof.
  induction l as [| c t IH]; simpl; [lia |].
  destruct (p c); simpl; lia.
Qed.

(** The budget [match_here] gives [tag_args] is enough: a larger one
    finds the same match. *)
Lemma tag_args_fuel (f1 : nat) :
  forall f2 l,
    length l < f1 -> length l < f2 -> tag_args f1 l = tag_args f2 l.
Proof.
  induction f1 as [| f1 IH]; intros f2 l H1 H2; [lia |].
  destruct f2 as [| f2]; [lia |].
  cbn [tag_args].
  destruct (close_tag l); [reflexivity |].
  pose proof (drop_while_length is_space l) as Hd.
  pose proof (take_while_length is_nonspace (drop_while is_space l)) as Ht.
  revert Ht.
  generalize (length (take_while is_nonspace (drop_while is_space l))).
  intros k. induction k as [| k IHk]; intros Hk; [reflexivity |].
  rewrite (IH f2 (skipn (S k) (drop_while is_space l))).
  - destruct (tag_args f2 _) as [[a rest] |]; [reflexivity |].
    apply IHk. lia.
  - rewrite length_skipn. lia.
  - rewrite length_skipn. lia.
Qed.

Lemma tag_args_length (fuel : nat) :
  forall l a rest,
    tag_args fuel l = Some (a, rest) -> length rest + 2 <= length l.
Proof.
  induction fuel as [| fuel IH]; intros l a rest H; simpl in H.
  - discriminate.
  - destruct (close_tag l) as [r |] eqn:Hc.
    + injection H as _ <-. now apply close_tag_length.
    + pose proof (drop_while_length is_space l) as Hd.
      revert H.
      generalize (length (take_while is_nonspace (drop_while is_space l))).
      intros k. induction k as [| k IHk]; intros H.
      * discriminate.
      * destruct (tag_args fuel (skipn (S k) (drop_while is_space l)))
          as [[a' rest'] |] eqn:Hrec.
        -- injection H as _ <-. apply IH in Hrec.
           rewrite length_skipn in Hrec. lia.
        -- now apply IHk.
Qed.

Lemma match_here_length (l : list ascii) f a rest :
  match_here l = Some (f, a, rest) -> length rest + 4 <= length l.
Proof.
  unfold match_here. intros H.
  destruct l as [| c0 [| c1 l1]]; try (destruct c0 as [[] [] [] [] [] [] [] []]; discriminate).
  - discriminate.
  - assert (Hsome :
      match take_while is_word (drop_while is_space l1) with
      | [] => None
      | _ :: _ =>
          match
            tag_args
              (S (length (drop_while is_word (drop_while is_space l1))))
              (drop_while is_word (drop_while is_space l1))
          with
          | Some (a, rest) =>
              Some (string_of_list_ascii
                      (take_while is_word (drop_while is_space l1)),
                    string_of_list_ascii a, rest)
          | None => None
          end
      end = Some (f, a, rest)).
    { destruct c0 as [[] [] [] [] [] [] [] []]; try discriminate;
        destruct c1 as [[] [] [] [] [] [] [] []]; try discriminate;
        exact H. }
    clear H.
    destruct (take_while is_word (drop_while is_space l1)); [discriminate |].
    destruct (tag_args _ _) as [[a' rest'] |] eqn:Hargs; [| discriminate].
    injection Hsome as _ _ <-.
    apply tag_args_length in Hargs.
    pose proof (drop_while_length is_word (drop_while is_space l1)).
    pose proof (drop_while_length is_space l1).
    simpl. lia.
Qed.

Lemma match_here_nil : match_here [] = None.
Proof. reflexivity. Qed.

Lemma search_from_start whole :
  forall l pos m, search_from whole pos l = Some m -> pos <= m_start m.
Proof.
  induction l as [| c t IH]; intros pos m H; cbn [search_from] in H.
  - discriminate.
  - destruct (match_here (c :: t)) as [[[f a] rest] |].
    + injection H as <-. simpl. lia.
    + apply IH in H. lia.
Qed.

Lemma search_none_finditer whole whole' :
  forall l pos pos' skip,
    search_from whole pos l = None ->
    finditer_from whole' pos' skip l = [].
Proof.
  induction l as [| c t IH]; intros pos pos' skip H;
    cbn [search_from finditer_from] in *.
  - reflexivity.
  - destruct (match_here (c :: t)) as [r |]; [discriminate |].
    destruct skip; eapply IH; eassumption.
Qed.

Lemma finditer_from_skip_all whole :
  forall l pos skip, length l <= skip -> finditer_from whole pos skip l = [].
Proof.
  induction l as [| c t IH]; intros pos skip H; cbn [finditer_from length] in *.
  - reflexivity.
  - destruct skip; [lia |]. apply IH. lia.
Qed.

(** Every match lies in the text that is scanned, is not empty and
    belongs to the string searched. *)
Lemma finditer_from_spans whole :
  forall l pos skip,
    Forall (fun m => pos + skip <= m_start m
                     /\ m_start m < m_end m
                     /\ m_end m <= pos + length l
                     /\ m_string m = whole)
           (finditer_from whole pos skip l).
Proof.
  induction l as [| c t IH]; intros pos skip; cbn [finditer_from].
  - constructor.
  - destruct skip as [| k].
    + destruct (match_here (c :: t)) as [[[f a] rest] |] eqn:Hm.
      * apply match_here_length in Hm. simpl in Hm.
        constructor.
        -- cbn [make_match m_start m_end m_string length].
           repeat split; try reflexivity; lia.
        -- eapply Forall_impl; [| apply IH]. cbn [length snd]. intros m ?. intuition lia.
      * eapply Forall_impl; [| apply IH]. cbn [length snd]. intros m ?. intuition lia.
    + eapply Forall_impl; [| apply IH]. cbn [length snd]. intros m ?. intuition lia.
Qed.

(** The matches come in the order of the text and do not overlap. *)
Lemma finditer_from_ordered whole :
  forall l pos skip m ms,
    finditer_from whole pos skip l = m :: ms ->
    Forall (fun m' => m_end m <= m_start m') ms.
Proof.
  induction l as [| c t IH]; intros pos skip m ms H; cbn [finditer_from] in H.
  - discriminate.
  - destruct skip as [| k].
    + destruct (match_here (c :: t)) as [[[f a] rest] |] eqn:Hm.
      * injection H as <- <-.
        apply match_here_length in Hm. simpl in Hm.
        eapply Forall_impl; [| apply finditer_from_spans].
        cbn [make_match m_end length snd]. intros m' ?. lia.
      * eapply IH; eassumption.
    + eapply IH; eassumption.
Qed.

Lemma finditer_spans (s : string) :
  Forall (fun m => m_start m < m_end m
                   /\ m_end m <= String.length s
                   /\ m_string m = s) (finditer s).
Proof.
  unfold finditer.
  eapply Forall_impl; [| apply finditer_from_spans].
  simpl. intros m H. rewrite length_list_ascii in H. tauto.
Qed.

Lemma search_none_no_match (s : string) :
  search s = None -> finditer s = [].
Proof. unfold search, finditer. apply search_none_finditer. Qed.

(** A tag that is the whole text is the only match. *)
Lemma whole_tag_only_match (s : string) (m : tag_match) :
  search s = Some m -> spans_whole s m -> finditer s = [m].
Proof.
  unfold search, finditer, spans_whole.
  rewrite <- (length_list_ascii s).
  generalize (list_ascii_of_string s). intros l Hs [H0 Hend].
  destruct l as [| c t]; [discriminate |].
  cbn [search_from finditer_from] in Hs |- *.
  destruct (match_here (c :: t)) as [[[f a] rest] |] eqn:Hm.
  - assert (Hmeq : m = make_match s 0 (c :: t) (f, a, rest)) by congruence.
    subst m. clear Hs. apply match_here_length in Hm.
    unfold make_match in *. cbn [m_end length snd] in *.
    rewrite finditer_from_skip_all; [reflexivity | lia].
  - apply search_from_start in Hs. lia.
Qed.

(** With two matches or more, no match is the whole text. *)
Lemma several_tags_not_whole (s : string) m1 m2 ms :
  finditer s = m1 :: m2 :: ms ->
  Forall (fun m => ~ spans_whole s m) (m1 :: m2 :: ms).
Proof.
  intros H.
  pose proof (finditer_spans s) as Hspans. rewrite H in Hspans.
  unfold finditer in H. apply finditer_from_ordered in H.
  inversion Hspans as [| ? ? H1 Hrest]; subst.
  inversion H as [| ? ? H12 Hord]; subst.
  inversion Hrest as [| ? ? H2 Hrest']; subst.
  constructor; [| constructor].
  - unfold spans_whole. lia.
  - unfold spans_whole. lia.
  - rewrite Forall_forall in *. intros m Hin [Hs _].
    specialize (Hord m Hin). lia.
Qed.

End TagFacts.

(* ================================================================== *)
(** * Facts about the evaluator *)
(* ================================================================== *)

Lemma substring_none (s : string) (i : nat) : substring i 0 s = "".
Proof.
  revert i. induction s as [| c s IH]; intros [| i]; simpl; auto.
Qed.

Lemma join_snoc (pieces : list node) (acc x : string) :
  Re.join pieces = Some acc ->
  Re.join (pieces ++ [NStr x]) = Some (acc ++ x)%string.
Proof.
  revert acc. induction pieces as [| p t IH]; intros acc H; simpl in *.
  - injection H as <-. simpl. now rewrite append_empty_r.
  - destruct p; try discriminate.
    destruct (Re.join t) as [r |]; [| discriminate].
    injection H as <-. rewrite (IH r eq_refl).
    now rewrite append_assoc.
Qed.

Lemma join_not_str (pieces rest : list node) (v : node) :
  (forall t, v <> NStr t) -> Re.join (pieces ++ v :: rest) = None.
Proof.
  intros Hv. induction pieces as [| p t IH]; simpl.
  - destruct v as [| b | z | t' | l | d | tag c]; try reflexivity.
    exfalso. exact (Hv t' eq_refl).
  - destruct p; try reflexivity. now rewrite IH.
Qed.

Section EvaluatorFacts.
Context {W : Type} (rt : runtime W).

Lemma bind_ret {A B : Type} (c : M W A) (k : A -> M W B) w a w' :
  c w = (Ret a, w') -> bind c k w = k a w'.
Proof. unfold bind. now intros ->. Qed.

Lemma bind_raise {A B : Type} (c : M W A) (k : A -> M W B) w e w' :
  c w = (Raise e, w') -> bind c k w = (Raise e, w').
Proof. unfold bind. now intros ->. Qed.

Lemma evaluate_parsed_list fuel items allow iteration :
  evaluate_parsed rt (S fuel) (NList items) allow iteration
  = evaluate_array rt (evaluate_parsed rt fuel) items 0 [].
Proof. reflexivity. Qed.

Lemma evaluate_parsed_dict fuel pairs allow iteration :
  evaluate_parsed rt (S fuel) (NDict pairs) allow iteration
  = evaluate_object (evaluate_parsed rt fuel) iteration pairs [].
Proof. reflexivity. Qed.

Lemma evaluate_parsed_str fuel s allow iteration :
  evaluate_parsed rt (S fuel) (NStr s) allow iteration
  = except_TypeError
      (Re.sub (call_function rt (NStr s) allow iteration) s)
      (match TAG_PATTERN.search s with
       | Some m => call_function rt (NStr s) allow iteration m
       | None => raise (AttributeError "'NoneType' has no group")
       end).
Proof. reflexivity. Qed.

(** ** call_function *)


Lemma call_function_whole s allow iteration m f w v w1 :
  functions rt (m_function m) = Some f ->
  f (tag_arguments m) iteration w = (Ret v, w1) ->
  spans_whole (m_string m) m ->
  call_function rt (NStr s) allow iteration m w = (Ret v, w1).
Proof.
  intros Hf Hcall [H0 Hend].
  unfold call_function, except_AttributeError, bind.
  rewrite Hf, Hcall. cbn [has_call andb].
  rewrite H0, Hend, !Nat.eqb_refl. reflexivity.
Qed.

Lemma call_function_embedded s allow iteration m f w v w1 :
  functions rt (m_function m) = Some f ->
  f (tag_arguments m) iteration w = (Ret v, w1) ->
  ~ spans_whole (m_string m) m ->
  call_function rt (NStr s) allow iteration m w
  = (Ret (NStr (py_str rt v)), w1).
Proof.
  intros Hf Hcall Hnot.
  unfold call_function, except_AttributeError, bind.
  rewrite Hf, Hcall. cbn [has_call andb].
  destruct (m_start m =? 0) eqn:E0; [| reflexivity].
  destruct (m_end m =? String.length (m_string m)) eqn:E1; [| reflexivity].
  apply Nat.eqb_eq in E0, E1. now destruct Hnot.
Qed.

Lemma call_function_returns s allow iteration m f w v w1 :
  functions rt (m_function m) = Some f ->
  f (tag_arguments m) iteration w = (Ret v, w1) ->
  exists v', call_function rt (NStr s) allow iteration m w = (Ret v', w1).
Proof.
  intros Hf Hcall.
  unfold call_function, except_AttributeError, bind.
  rewrite Hf, Hcall. cbn [has_call andb].
  destruct (negb _ || negb _); eexists; reflexivity.
Qed.

(** ** re.sub over the tags of a text *)

(** Every call returns and no tag is the whole text: the pieces are
    strings, and their join is the spliced text. *)
Lemma sub_loop_embedded s allow iteration :
  forall ms w vs w',
    calls_return rt iteration ms w vs w' ->
    Forall (fun m => m_string m = s /\ ~ spans_whole s m) ms ->
    forall i pieces acc,
      Re.join pieces = Some acc ->
      Re.sub_loop (call_function rt (NStr s) allow iteration) s i ms pieces w
      = (Ret (NStr (acc ++ splice s i ms (map (py_str rt) vs))), w').
Proof.
  induction 1 as [w | m ms f w v w1 vs w2 Hf Hcall Hrest IH];
    intros Hall i pieces acc Hjoin; cbn [Re.sub_loop splice map].
  - now rewrite (join_snoc _ _ _ Hjoin).
  - pose proof (Forall_inv Hall) as [Hstr Hnot].
    pose proof (Forall_inv_tail Hall) as Hall'.
    erewrite bind_ret;
      [| eapply call_function_embedded; eauto; now rewrite Hstr].
    cbv beta iota.
    rewrite (IH Hall' (m_end m)
               ((pieces ++ [NStr (substring i (m_start m - i) s)])
                ++ [NStr (py_str rt v)])
               ((acc ++ substring i (m_start m - i) s)
                ++ py_str rt v)%string).
    + now rewrite !append_assoc.
    + apply join_snoc. now apply join_snoc.
Qed.


(** A text that is one tag and nothing else: what the first call
    returns decides between the substitution and the fall-back. *)
Lemma whole_tag_text fuel s allow iteration m f w v1 w1 :
  TAG_PATTERN.search s = Some m ->
  spans_whole s m ->
  functions rt (m_function m) = Some f ->
  f (tag_arguments m) iteration w = (Ret v1, w1) ->
  evaluate_parsed rt (S fuel) (NStr s) allow iteration w
  = match v1 with
    | NNone => (Ret (NStr ""), w1)
    | NStr t => (Ret (NStr t), w1)
    | _ => call_function rt (NStr s) allow iteration m w1
    end.
Proof.
  intros Hsearch Hwhole Hf Hcall.
  pose proof (TagFacts.whole_tag_only_match s m Hsearch Hwhole) as Hiter.
  pose proof (TagFacts.finditer_spans s) as Hspans.
  rewrite Hiter in Hspans. inversion Hspans as [| ? ? [_ [_ Hstr]] _]; subst.
  rewrite evaluate_parsed_str, Hsearch.
  unfold except_TypeError, Re.sub. rewrite Hiter.
  cbn [Re.sub_loop].
  erewrite bind_ret; [| eapply call_function_whole; eauto].
  destruct Hwhole as [H0 Hend]. rewrite H0, Hend, !Nat.sub_diag.
  rewrite !substring_none.
  destruct v1; try reflexivity.
  cbn. now rewrite !append_empty_r.
Qed.

(** ** evaluate_array *)

Lemma evaluate_array_consumed (ev : evaluator W) :
  forall items index evaluated w evaluated' w',
    consumed rt ev items index evaluated w evaluated' w' ->
    forall rest,
      evaluate_array rt ev (items ++ rest) index evaluated w
      = evaluate_array rt ev rest (index + length items) evaluated' w'.
Proof.
  induction 1 as [index evaluated w
                 | x items index evaluated w v w1 evaluated' w2 Hev Hv _ IH
                 | x next items index evaluated w c w1 r more w2
                     evaluated' w3 Hev Hinv Hit _ IH];
    intros rest; cbn [app length evaluate_array].
  - now rewrite Nat.add_0_r.
  - erewrite bind_ret; [| exact Hev].
    replace (index + S (length items)) with (index + 1 + length items)
      by lia.
    destruct v; try discriminate; apply IH.
  - erewrite bind_ret; [| exact Hev].
    cbn [String.eqb Ascii.eqb Bool.eqb].
    erewrite bind_ret; [| exact Hinv].
    rewrite Hit.
    replace (index + S (S (length items))) with (index + 2 + length items)
      by lia.
    apply IH.
Qed.

(** ** evaluate_object *)

Lemma evaluate_object_pairs (ev : evaluator W) iteration :
  forall pairs w out w',
    pairs_evaluated ev iteration pairs w out w' ->
    forall rest evaluated,
      evaluate_object ev iteration (pairs ++ rest) evaluated w
      = evaluate_object ev iteration rest
          (fold_left (fun d kv => setitem d (fst kv) (snd kv)) out evaluated)
          w'.
Proof.
  induction 1 as [w | k v rest0 w value w1 key w2 out w3 Hv Hk Hh _ IH];
    intros rest evaluated; cbn [app evaluate_object fold_left].
  - reflexivity.
  - erewrite bind_ret; [| exact Hv].
    erewrite bind_ret; [| exact Hk].
    rewrite Hh. apply IH.
Qed.

End EvaluatorFacts.

(** ** Insertion of pairs with different keys *)

Lemma setitem_fresh (d : list (node * node)) (k v : node) :
  fresh_key d k = true -> setitem d k v = d ++ [(k, v)].
Proof.
  unfold fresh_key. induction d as [| [k' v'] d IH]; simpl; intros H.
  - reflexivity.
  - destruct (key_eqb k' k); [discriminate |].
    simpl in H. now rewrite IH.
Qed.

Lemma distinct_keys_middle (d out : list (node * node)) (kv : node * node) :
  distinct_keys (d ++ kv :: out) = true ->
  fresh_key d (fst kv) = true /\ distinct_keys ((d ++ [kv]) ++ out) = true.
Proof.
  rewrite <- app_assoc. simpl. intros H. split; [| exact H].
  unfold fresh_key. induction d as [| a d IH]; simpl in *.
  - reflexivity.
  - apply andb_true_iff in H as [Ha Hd].
    rewrite existsb_app in Ha. simpl in Ha.
    destruct (key_eqb (fst a) (fst kv)); simpl in *.
    + now rewrite orb_true_r in Ha.
    + now apply IH.
Qed.

Lemma fold_setitem_distinct :
  forall out d,
    distinct_keys (d ++ out) = true ->
    fold_left (fun d kv => setitem d (fst kv) (snd kv)) out d = d ++ out.
Proof.
  induction out as [| [k v] out IH]; intros d H; simpl.
  - now rewrite app_nil_r.
  - apply distinct_keys_middle in H as [Hfresh Hrest].
    simpl in Hfresh. rewrite (setitem_fresh _ _ _ Hfresh).
    rewrite (IH _ Hrest). now rewrite <- app_assoc.
Qed.

Lemma inserted_distinct (out : list (node * node)) :
  distinct_keys out = true -> inserted out = out.
Proof. intros H. unfold inserted. now rewrite fold_setitem_distinct. Qed.

(** ** Documents without tags *)

Lemma depth_positive (d : node) : 1 <= depth d.
Proof. destruct d; simpl; lia. Qed.

Lemma depth_item (items : list node) (x : node) :
  In x items ->
  depth x <= fold_right (fun x n => Nat.max (depth x) n) 0 items.
Proof.
  induction items as [| y t IH]; simpl; intros H; [contradiction |].
  destruct H as [-> | H]; [lia | apply IH in H; lia].
Qed.

Lemma depth_pair (pairs : list (node * node)) (k v : node) :
  In (k, v) pairs ->
  Nat.max (depth k) (depth v)
  <= fold_right
       (fun kv n => Nat.max (Nat.max (depth (fst kv)) (depth (snd kv))) n)
       0 pairs.
Proof.
  induction pairs as [| y t IH]; simpl; intros H; [contradiction |].
  destruct H as [-> | H]; [simpl; lia | apply IH in H; lia].
Qed.

Lemma document_not_callable (d : node) :
  is_document d = true -> has_call d = false.
Proof. destruct d; simpl; congruence. Qed.

Lemma scalar_key_hashable (k : node) :
  scalar_key k = true -> hashable k = true.
Proof. destruct k; simpl; congruence. Qed.

Section Identity.
Context {W : Type} (rt : runtime W) (ev : evaluator W).

Lemma evaluate_array_identity (items : list node) :
  (forall x, In x items -> has_call x = false /\ unchanged_by ev x) ->
  forall index evaluated w,
    evaluate_array rt ev items index evaluated w
    = (Ret (NList (evaluated ++ items)), w).
Proof.
  induction items as [| x t IH]; intros Hall index evaluated w;
    cbn [evaluate_array].
  - now rewrite app_nil_r.
  - destruct (Hall x (or_introl eq_refl)) as [Hcall Hx].
    erewrite bind_ret; [| apply Hx].
    assert (Ht : forall y, In y t -> has_call y = false /\ unchanged_by ev y)
      by (intros y Hy; apply Hall; now right).
    destruct x; try discriminate;
      rewrite (IH Ht); now rewrite <- app_assoc.
Qed.

Lemma evaluate_object_identity iteration (pairs : list (node * node)) :
  (forall k v, In (k, v) pairs ->
     hashable k = true /\ unchanged_by ev k /\ unchanged_by ev v) ->
  forall evaluated w,
    distinct_keys (evaluated ++ pairs) = true ->
    evaluate_object ev iteration pairs evaluated w
    = (Ret (NDict (evaluated ++ pairs)), w).
Proof.
  induction pairs as [| [k v] t IH]; intros Hall evaluated w Hd;
    cbn [evaluate_object].
  - now rewrite app_nil_r.
  - destruct (Hall k v (or_introl eq_refl)) as [Hh [Hk Hv]].
    erewrite bind_ret; [| apply Hv].
    erewrite bind_ret; [| apply Hk].
    rewrite Hh.
    apply distinct_keys_middle in Hd as [Hfresh Hrest].
    simpl in Hfresh. rewrite (setitem_fresh _ _ _ Hfresh).
    rewrite IH; [now rewrite <- app_assoc | | exact Hrest].
    intros k' v' Hin. apply Hall. now right.
Qed.

End Identity.

(** ** The match object of a tag that is the whole text *)

Lemma whole_tag_string (s : string) (m : tag_match) :
  TAG_PATTERN.search s = Some m -> spans_whole s m -> m_string m = s.
Proof.
  intros Hs Hw.
  pose proof (TagFacts.finditer_spans s) as H.
  rewrite (TagFacts.whole_tag_only_match s m Hs Hw) in H.
  now inversion H as [| ? ? [_ [_ Hstr]] _].
Qed.

Lemma embedded_tags_not_whole (s : string) :
  embedded_tags s ->
  Forall (fun m => m_string m = s /\ ~ spans_whole s m)
         (TAG_PATTERN.finditer s).
Proof.
  unfold embedded_tags. intros H.
  pose proof (TagFacts.finditer_spans s) as Hspans.
  assert (Hnot : Forall (fun m => ~ spans_whole s m) (TAG_PATTERN.finditer s)).
  { destruct (TAG_PATTERN.finditer s) as [| m1 [| m2 ms]] eqn:E.
    - contradiction.
    - now constructor.
    - now apply TagFacts.several_tags_not_whole. }
  rewrite Forall_forall in *. intros m Hin. split.
  - now apply Hspans.
  - now apply Hnot.
Qed.

(* ================================================================== *)
(** * The properties of the specification *)
(* ================================================================== *)

Section Properties.
Context {W : Type} (rt : runtime W).

(** C9.  A document (mapping, sequence, text or other scalar) in which
    no text holds a tag evaluates to itself: same shape, same keys in the
    same order, same items, same scalars.  No function and no controller
    is called on the way, the world is the one the evaluation started
    from: nothing is in a position to change the input, and the
    containers of the result are built by the evaluator.  [fuel] only has
    to cover the nesting depth of the document. *)
Theorem C9_tag_free_document_is_unchanged :
  forall fuel d allow iteration w,
    is_document d = true ->
    tag_free d = true ->
    depth d <= fuel ->
    evaluate_parsed rt fuel d allow iteration w = (Ret d, w).
Proof.
  induction fuel as [| fuel IH];
    intros d allow iteration w Hdoc Hfree Hdepth.
  - pose proof (depth_positive d). lia.
  - destruct d as [| b | z | s | items | pairs | tag c];
      try reflexivity.
    + rewrite evaluate_parsed_str. cbn [tag_free] in Hfree.
      destruct (TAG_PATTERN.search s) eqn:Hs; [discriminate |].
      unfold except_TypeError, Re.sub.
      rewrite (TagFacts.search_none_no_match s Hs).
      cbn [Re.sub_loop app Re.join].
      rewrite Nat.sub_0_r, substring_all, append_empty_r. reflexivity.
    + rewrite evaluate_parsed_list.
      rewrite evaluate_array_identity; [reflexivity |].
      intros x Hin. simpl in Hdoc, Hfree, Hdepth.
      rewrite forallb_forall in Hdoc, Hfree.
      pose proof (depth_item items x Hin) as Hx.
      split; [apply document_not_callable; auto |].
      intros a i w'. apply IH; auto. lia.
    + rewrite evaluate_parsed_dict.
      simpl in Hdoc, Hfree, Hdepth.
      apply andb_true_iff in Hdoc as [Hdoc Hkeys].
      rewrite forallb_forall in Hdoc, Hfree.
      rewrite evaluate_object_identity; [reflexivity | | exact Hkeys].
      intros k v Hin.
      pose proof (depth_pair pairs k v Hin) as Hkv.
      specialize (Hdoc _ Hin). specialize (Hfree _ Hin).
      cbn [fst snd] in Hdoc, Hfree.
      apply andb_true_iff in Hdoc as [Hk Hv].
      apply andb_true_iff in Hfree as [Hfk Hfv].
      split; [now apply scalar_key_hashable |].
      split; intros a i w'; apply IH; auto; try lia.
      destruct k; simpl in Hk |- *; congruence.
Qed.

(** C6.  A text with a tag among literal text, or with several tags,
    whose functions all return: the result is the text in which the span
    of each tag is replaced by [str] of what its function returned, the
    text around the spans being unchanged.  With [seq] returning 7, the
    text [id-{% seq %}] gives [id-7]. *)
Theorem C6_embedded_tags_are_spliced :
  forall fuel s allow iteration w vs w',
    embedded_tags s ->
    calls_return rt iteration (TAG_PATTERN.finditer s) w vs w' ->
    evaluate_parsed rt (S fuel) (NStr s) allow iteration w
    = (Ret (NStr (splice s 0 (TAG_PATTERN.finditer s) (map (py_str rt) vs))),
       w').
Proof.
  intros fuel s allow iteration w vs w' Hemb Hcalls.
  rewrite evaluate_parsed_str. unfold except_TypeError, Re.sub.
  rewrite (sub_loop_embedded rt s allow iteration _ _ _ _ Hcalls
             (embedded_tags_not_whole s Hemb) 0 [] "" eq_refl).
  reflexivity.
Qed.


(** C7.  The loop has come to the last item of a sequence and this item
    evaluates to a deferred controller value: the evaluation fails with
    the error of an invalid use at the end of the array, which names the
    origin of the controller, [repeat], [random] or any other. *)
Theorem C7_controller_at_last_index :
  forall fuel before x allow iteration w evaluated w1 origin c w2,
    consumed rt (evaluate_parsed rt fuel) before 0 [] w evaluated w1 ->
    evaluate_parsed rt fuel x true (Some (length before)) w1
    = (Ret (NCallable (Some origin) c), w2) ->
    evaluate_parsed rt (S fuel) (NList (before ++ [x])) allow iteration w
    = (Raise (end_of_array origin), w2).
Proof.
  intros fuel before x allow iteration w evaluated w1 origin c w2 Hpre Hx.
  rewrite evaluate_parsed_list.
  rewrite (evaluate_array_consumed rt _ _ _ _ _ _ _ Hpre).
  cbn [evaluate_array]. now rewrite (bind_ret _ _ _ _ _ Hx).
Qed.

(** C3.  The loop has come to position [i] of a sequence, not the last
    one, and the item there evaluates to a deferred controller value of
    origin [repeat]: the controller is called with the item at [i + 1]
    as it stands, not evaluated, and with the evaluator as callback;
    every item of the sequence it returns is appended to the output; and
    the loop goes on at position [i + 2]. *)
Theorem C3_repeat_takes_next_item :
  forall fuel before x next rest allow iteration w evaluated w1 c w2 more w3,
    consumed rt (evaluate_parsed rt fuel) before 0 [] w evaluated w1 ->
    evaluate_parsed rt fuel x true (Some (length before)) w1
    = (Ret (NCallable (Some "repeat") c), w2) ->
    invoke rt c next (evaluate_parsed rt fuel) w2 = (Ret (NList more), w3) ->
    evaluate_parsed rt (S fuel) (NList (before ++ x :: next :: rest))
      allow iteration w
    = evaluate_array rt (evaluate_parsed rt fuel) rest (length before + 2)
        (evaluated ++ more) w3.
Proof.
  intros fuel before x next rest allow iteration w evaluated w1 c w2 more w3
    Hpre Hx Hinv.
  rewrite evaluate_parsed_list.
  rewrite (evaluate_array_consumed rt _ _ _ _ _ _ _ Hpre).
  cbn [evaluate_array]. rewrite (bind_ret _ _ _ _ _ Hx).
  cbn [String.eqb Ascii.eqb Bool.eqb].
  now rewrite (bind_ret _ _ _ _ _ Hinv).
Qed.

(** C1, as the code has it.  The loop has come to position [i] of a
    sequence, not the last one, and the item there evaluates to a
    deferred controller value of origin [random]: the outcome of the
    sequence is the outcome of the controller, called with the items
    after [i] as they stand, not evaluated, and with the evaluator as
    callback.  What was evaluated before [i] is not part of it, and no
    position after [i] is processed. *)
Theorem C1_random_result_is_the_output :
  forall fuel before x after allow iteration w evaluated w1 c w2,
    consumed rt (evaluate_parsed rt fuel) before 0 [] w evaluated w1 ->
    evaluate_parsed rt fuel x true (Some (length before)) w1
    = (Ret (NCallable (Some "random") c), w2) ->
    after <> [] ->
    evaluate_parsed rt (S fuel) (NList (before ++ x :: after))
      allow iteration w
    = invoke rt c (NList after) (evaluate_parsed rt fuel) w2.
Proof.
  intros fuel before x after allow iteration w evaluated w1 c w2
    Hpre Hx Hafter.
  rewrite evaluate_parsed_list.
  rewrite (evaluate_array_consumed rt _ _ _ _ _ _ _ Hpre).
  cbn [evaluate_array]. rewrite (bind_ret _ _ _ _ _ Hx).
  destruct after as [| next after']; [contradiction | reflexivity].
Qed.

(** C5, as the code has it.  The pairs of a mapping are evaluated in
    their order, key and value under the iteration index the mapping
    itself is evaluated with (the position of the mapping when it is an
    item of a sequence, none at top level), and put one after the other
    into a new ordered mapping; when the evaluated keys differ from each
    other, the mapping holds exactly the evaluated pairs in the original
    order. *)
Theorem C5_mapping_pairs_under_own_iteration :
  forall fuel pairs allow iteration w out w',
    pairs_evaluated (evaluate_parsed rt fuel) iteration pairs w out w' ->
    evaluate_parsed rt (S fuel) (NDict pairs) allow iteration w
    = (Ret (NDict (inserted out)), w')
    /\ (distinct_keys out = true -> inserted out = out).
Proof.
  intros fuel pairs allow iteration w out w' Hpairs. split.
  - rewrite evaluate_parsed_dict.
    rewrite <- (app_nil_r pairs).
    now rewrite (evaluate_object_pairs _ _ _ _ _ _ Hpairs).
  - apply inserted_distinct.
Qed.

(** A text that is one tag and nothing else, whose function returns a
    value that is neither a string nor [None]: the function is called
    twice, the second time from the world the first call left, and the
    result of the evaluation is what the second call returns. *)
Lemma whole_tag_function_called_twice :
  forall fuel s allow iteration m f w v1 w1 v2 w2,
    TAG_PATTERN.search s = Some m ->
    spans_whole s m ->
    functions rt (m_function m) = Some f ->
    f (tag_arguments m) iteration w = (Ret v1, w1) ->
    v1 <> NNone ->
    (forall t, v1 <> NStr t) ->
    f (tag_arguments m) iteration w1 = (Ret v2, w2) ->
    evaluate_parsed rt (S fuel) (NStr s) allow iteration w = (Ret v2, w2).
Proof.
  intros fuel s allow iteration m f w v1 w1 v2 w2
    Hs Hw Hf Hfirst Hnone Hstr Hsecond.
  rewrite (whole_tag_text rt fuel s allow iteration m f w v1 w1 Hs Hw Hf
             Hfirst).
  assert (Hcall : call_function rt (NStr s) allow iteration m w1
                  = (Ret v2, w2)).
  { eapply call_function_whole; eauto.
    now rewrite (whole_tag_string s m Hs Hw). }
  destruct v1 as [| b | z | t | l | d | tag c]; try exact Hcall.
  - now destruct Hnone.
  - now destruct (Hstr t).
Qed.

End Properties.

(* ================================================================== *)
(** * The properties on the sample module *)
(* ================================================================== *)

Module Runs.
Import Sample.

(** [id-{% seq %}] gives [id-7]. *)
Lemma C6_witness_id_7 :
  evaluate_parsed rt 1 (NStr "id-{% seq %}") false None 0
  = (Ret (NStr "id-7"), 1).
Proof.
  refine (C6_embedded_tags_are_spliced rt 0 "id-{% seq %}" false None 0
            [NInt 7] 1 _ _).
  - vm_compute. intros [H _]. discriminate H.
  - eapply (calls_cons rt None _ [] seq); [reflexivity | reflexivity |].
    apply calls_nil.
Defined.


(** A [random] at the last index. *)
Lemma C7_witness_random_at_end :
  evaluate_parsed rt 2 (NList [NStr "a"; NStr "{% random %}"]) false None 0
  = (Raise (end_of_array "random"), 2).
Proof.
  refine (C7_controller_at_last_index rt 1 [NStr "a"] _ false None 0
            [NStr "a"] 0 "random" 0 2 _ _).
  - eapply consumed_item; [reflexivity | reflexivity | apply consumed_nil].
  - reflexivity.
Defined.

(** [repeat 3] and its template: three copies, each with its iteration
    index, and the loop goes on after the template. *)
Lemma C3_witness_three_copies :
  evaluate_parsed rt 2
    (NList [NStr "{% repeat 3 %}"; NStr "X{% index %}"; NStr "end"])
    false None 0
  = (Ret (NList [NStr "X0"; NStr "X1"; NStr "X2"; NStr "end"]), 5).
Proof.
  refine (C3_repeat_takes_next_item rt 1 [] _ _ [NStr "end"] false None 0
            [] 0 4 2 [NStr "X0"; NStr "X1"; NStr "X2"] 5 _ _ _).
  - apply consumed_nil.
  - reflexivity.
  - reflexivity.
Defined.

(** The output of the sample [random] stands for the whole sequence. *)
Lemma C1_witness_random_output :
  evaluate_parsed rt 2
    (NList [NStr "a"; NStr "{% random %}"; NStr "b"; NStr "c"]) false None 0
  = (Ret (NList [NStr "b"; NStr "c"]), 2).
Proof.
  refine (C1_random_result_is_the_output rt 1 [NStr "a"] _
            [NStr "b"; NStr "c"] false None 0 [NStr "a"] 0 0 2 _ _ _).
  - eapply consumed_item; [reflexivity | reflexivity | apply consumed_nil].
  - reflexivity.
  - discriminate.
Defined.

(** C1 as stated fails: the claim has the evaluated form of the item
    before the controller, ["a"], followed by the result of the
    controller, ["b", "c"]; the code returns the result of the controller
    alone. *)
Lemma C1_counterexample_prefix_is_dropped :
  evaluate_parsed rt 2
    (NList [NStr "a"; NStr "{% random %}"; NStr "b"; NStr "c"]) false None 0
  = (Ret (NList [NStr "b"; NStr "c"]), 2)
  /\ evaluate_parsed rt 1 (NStr "a") true (Some 0) 0 = (Ret (NStr "a"), 0)
  /\ invoke rt 0 (NList [NStr "b"; NStr "c"]) (evaluate_parsed rt 1) 2
     = (Ret (NList [NStr "b"; NStr "c"]), 2)
  /\ NList [NStr "b"; NStr "c"]
     <> NList ([NStr "a"] ++ [NStr "b"; NStr "c"]).
Proof.
  repeat split; try reflexivity. discriminate.
Qed.

(** A mapping evaluated under the index 0. *)
Lemma C5_witness_mapping_under_index :
  evaluate_parsed rt 2 (NDict [(NStr "k{% index %}", NStr "{% index %}")])
    false (Some 0) 0
  = (Ret (NDict [(NStr "k0", NInt 0)]), 3).
Proof.
  refine (proj1 (C5_mapping_pairs_under_own_iteration rt 1 _ false (Some 0)
                   0 [(NStr "k0", NInt 0)] 3 _)).
  eapply pairs_cons; [reflexivity | reflexivity | reflexivity |].
  apply pairs_nil.
Defined.

(** C5 as stated fails: a mapping that is the item 0 of a sequence has
    its value evaluated with the index 0, where the reading with the
    absence marker gives what [index] returns without an index. *)
Lemma C5_counterexample_index_reaches_mapping :
  evaluate_parsed rt 3 (NList [NDict [(NStr "k", NStr "{% index %}")]])
    false None 0
  = (Ret (NList [NDict [(NStr "k", NInt 0)]]), 2)
  /\ evaluate_object_absent (evaluate_parsed rt 1)
       [(NStr "k", NStr "{% index %}")] 0
     = (Ret (NDict [(NStr "k", NInt (-1))]), 2)
  /\ NList [NDict [(NStr "k", NInt 0)]]
     <> NList [NDict [(NStr "k", NInt (-1))]].
Proof.
  repeat split; try reflexivity. discriminate.
Qed.

(** A nested document without tags. *)
Lemma C9_witness_nested_document :
  evaluate_parsed rt 3
    (NDict [(NStr "a", NList [NInt 1; NStr "x %} {%"; NNone]);
            (NInt 2, NBool true)])
    false None 0
  = (Ret (NDict [(NStr "a", NList [NInt 1; NStr "x %} {%"; NNone]);
                 (NInt 2, NBool true)]), 0).
Proof.
  refine (C9_tag_free_document_is_unchanged rt 3 _ false None 0 _ _ _).
  - reflexivity.
  - reflexivity.
  - vm_compute. lia.
Defined.

(** [count] returns the number of calls made before it: the result is
    the one of the second call. *)
Lemma count_is_called_twice :
  evaluate_parsed rt 1 (NStr "{% count %}") false None 0
  = (Ret (NInt 1), 2).
Proof.
  refine (whole_tag_function_called_twice rt 0 "{% count %}" false None
            (TagMatch 0 11 "{% count %}" "count" "") count 0
            (NInt 0) 1 (NInt 1) 2 _ _ _ _ _ _ _);
    try reflexivity; try discriminate.
  split; reflexivity.
Defined.

(** C10 on a function that returns [None], a value that is not a
    string: the substitution takes it for an empty replacement and does
    not fail, so the handler that calls the function a second time is
    not reached; the function is called once and the result is the empty
    text, not what a second call returns. *)
Theorem C10_none_is_called_once :
  TAG_PATTERN.search "{% null %}"
  = Some (TagMatch 0 10 "{% null %}" "null" "")
  /\ null [] None 0 = (Ret NNone, 1)
  /\ null [] None 1 = (Ret NNone, 2)
  /\ evaluate_parsed rt 1 (NStr "{% null %}") false None 0
     = (Ret (NStr ""), 1)
  /\ (Ret (NStr ""), 1) <> (Ret NNone, 2).
Proof.
  repeat split; try reflexivity. discriminate.
Qed.

(** C4 on a function that returns [None]: the text that is this one
    tag evaluates to the empty text, not to [None]. *)
Theorem C4_none_becomes_empty_text :
  TAG_PATTERN.search "{%null%}" = Some (TagMatch 0 8 "{%null%}" "null" "")
  /\ functions rt "null" = Some null
  /\ null [] None 0 = (Ret NNone, 1)
  /\ evaluate_parsed rt 1 (NStr "{%null%}") false None 0
     = (Ret (NStr ""), 1).
Proof.
  repeat split; reflexivity.
Qed.

(** C2 on [repeat], which returns a deferred controller value: as a
    value of a mapping, as a key of a mapping and at top level the
    controller is the result; among other text its [str] is spliced in.
    No error is raised. *)
Theorem C2_controller_value_passes_unchecked :
  evaluate_parsed rt 2 (NDict [(NStr "k", NStr "{% repeat 3 %}")])
    false None 0
  = (Ret (NDict [(NStr "k", NCallable (Some "repeat") 4)]), 2)
  /\ evaluate_parsed rt 2 (NDict [(NStr "{% repeat 3 %}", NStr "v")])
       false None 0
     = (Ret (NDict [(NCallable (Some "repeat") 4, NStr "v")]), 2)
  /\ evaluate_parsed rt 1 (NStr "{% repeat 3 %}") false None 0
     = (Ret (NCallable (Some "repeat") 4), 2)
  /\ evaluate_parsed rt 1 (NStr "n={% repeat 3 %}") false None 0
     = (Ret (NStr "n=<object>"), 1).
Proof.
  repeat split; reflexivity.
Qed.

End Runs.

(* ================================================================== *)
(** * Further properties: TAG_PATTERN *)
(* ================================================================== *)

Module TagShape.
Import TAG_PATTERN.

Lemma take_drop_while (p : ascii -> bool) (l : list ascii) :
  take_while p l ++ drop_while p l = l.
Proof.
  induction l as [| c t IH]; simpl; [reflexivity |].
  destruct (p c); simpl; [now rewrite IH | reflexivity].
Qed.

Lemma take_while_all (p : ascii -> bool) (l : list ascii) :
  forallb p (take_while p l) = true.
Proof.
  induction l as [| c t IH]; simpl; [reflexivity |].
  destruct (p c) eqn:E; simpl; [now rewrite E | reflexivity].
Qed.

Lemma take_while_app (p : ascii -> bool) (pre l : list ascii) :
  forallb p pre = true ->
  match l with
  | [] => True
  | c :: _ => p c = false
  end ->
  take_while p (pre ++ l) = pre /\ drop_while p (pre ++ l) = l.
Proof.
  intros Hpre Hl. induction pre as [| c t IH]; simpl in *.
  - destruct l as [| c t]; [auto |]. simpl. now rewrite Hl.
  - apply andb_true_iff in Hpre as [Hc Ht]. rewrite Hc.
    destruct (IH Ht) as [-> ->]. auto.
Qed.

Lemma word_not_space (c : ascii) : is_word c = true -> is_space c = false.
Proof.
  destruct c as [[] [] [] [] [] [] [] []]; vm_compute; congruence.
Qed.

Lemma space_not_word (c : ascii) : is_space c = true -> is_word c = false.
Proof.
  destruct c as [[] [] [] [] [] [] [] []]; vm_compute; congruence.
Qed.

(** What [tag_args] returns: the text of the group, optional white
    space, the close of the tag, and the rest. *)
Lemma tag_args_shape (fuel : nat) :
  forall l a rest,
    tag_args fuel l = Some (a, rest) ->
    exists ws,
      all_space ws = true /\ l = a ++ ws ++ "%"%char :: "}"%char :: rest.
Proof.
  induction fuel as [| fuel IH]; intros l a rest H; cbn [tag_args] in H.
  - discriminate.
  - destruct (close_tag l) as [r |] eqn:Hc.
    + injection H as <- <-. apply TagFacts.close_tag_inv in Hc.
      exists (take_while is_space l). split.
      * apply take_while_all.
      * simpl. rewrite <- Hc. symmetry. apply take_drop_while.
    + revert a rest H.
      generalize (length (take_while is_nonspace (drop_while is_space l))).
      intros k. induction k as [| k IHk]; intros a rest H; [discriminate |].
      destruct (tag_args fuel (skipn (S k) (drop_while is_space l)))
        as [[a' rest'] |] eqn:Hrec.
      * injection H as Ha Hr. subst a rest.
        apply IH in Hrec as [ws [Hws Heq]].
        exists ws. split; [exact Hws |].
        transitivity (take_while is_space l ++ drop_while is_space l);
          [symmetry; apply take_drop_while |].
        rewrite <- !app_assoc. f_equal.
        transitivity (firstn (S k) (drop_while is_space l)
                      ++ skipn (S k) (drop_while is_space l));
          [symmetry; apply firstn_skipn |].
        now rewrite Heq.
      * now apply IHk.
Qed.

Lemma match_here_open (l : list ascii) r :
  match_here l = Some r ->
  exists l1, l = "{"%char :: "%"%char :: l1.
Proof.
  unfold match_here. intros H.
  destruct l as [| c0 [| c1 l1]].
  - discriminate.
  - destruct c0 as [[] [] [] [] [] [] [] []]; discriminate.
  - destruct c0 as [[] [] [] [] [] [] [] []]; try discriminate;
      destruct c1 as [[] [] [] [] [] [] [] []]; try discriminate.
    now exists l1.
Qed.

(** What [match_here] returns lies in the language of the pattern. *)
Lemma match_here_shape (l : list ascii) f a rest :
  match_here l = Some (f, a, rest) ->
  exists ws0 name args ws1,
    l = "{"%char :: "%"%char :: ws0 ++ name ++ args ++ ws1
          ++ "%"%char :: "}"%char :: rest
    /\ all_space ws0 = true /\ all_space ws1 = true
    /\ name <> [] /\ all_word name = true
    /\ f = string_of_list_ascii name /\ a = string_of_list_ascii args.
Proof.
  intros H. destruct (match_here_open l _ H) as [l1 ->].
  cbn [match_here] in H.
  destruct (take_while is_word (drop_while is_space l1)) as [| n0 name']
    eqn:Hname; [discriminate |].
  destruct (tag_args _ _) as [[a' rest'] |] eqn:Hargs; [| discriminate].
  injection H as <- <- <-.
  apply tag_args_shape in Hargs as [ws1 [Hws1 Heq]].
  exists (take_while is_space l1), (n0 :: name'), a', ws1.
  repeat split; try reflexivity; try assumption.
  - f_equal. f_equal.
    rewrite <- Heq, <- Hname.
    rewrite (take_drop_while is_word (drop_while is_space l1)).
    symmetry. apply take_drop_while.
  - apply take_while_all.
  - discriminate.
  - unfold all_word. rewrite <- Hname. apply take_while_all.
Qed.

Lemma search_from_inv whole :
  forall l pos m,
    search_from whole pos l = Some m ->
    exists pre suf r,
      l = pre ++ suf /\ match_here suf = Some r
      /\ m = make_match whole (pos + length pre) suf r.
Proof.
  induction l as [| c t IH]; intros pos m H; cbn [search_from] in H.
  - destruct (match_here []) eqn:E; discriminate.
  - destruct (match_here (c :: t)) as [r |] eqn:Hm.
    + injection H as <-. exists [], (c :: t), r.
      cbn [length app]. now rewrite Nat.add_0_r.
    + apply IH in H as [pre [suf [r [-> [Hr ->]]]]].
      exists (c :: pre), suf, r. cbn [length app].
      repeat split; auto. f_equal. lia.
Qed.

Lemma string_of_list_nonempty (l : list ascii) :
  l <> [] -> string_of_list_ascii l <> "".
Proof. destruct l; [congruence | discriminate]. Qed.

End TagShape.

Module TagSearch.
Import TAG_PATTERN.

Lemma occurs2_app (a b : ascii) (pre rest : list ascii) :
  occurs2 a b (pre ++ a :: b :: rest) = true.
Proof.
  induction pre as [| x t IH]; cbn [app occurs2].
  - now rewrite !Ascii.eqb_refl.
  - destruct (t ++ a :: b :: rest) eqn:E.
    + destruct t; discriminate.
    + rewrite IH. apply orb_true_r.
Qed.

Lemma search_marks (s : string) (m : tag_match) :
  search s = Some m ->
  occurs2 "{" "%" (list_ascii_of_string s) = true
  /\ occurs2 "%" "}" (list_ascii_of_string s) = true.
Proof.
  unfold search. intros H.
  apply TagShape.search_from_inv in H
    as [pre [suf [[[f a] rest] [Hl [Hm _]]]]].
  apply TagShape.match_here_shape in Hm
    as [ws0 [name [args [ws1 [-> _]]]]].
  rewrite Hl. split.
  - apply occurs2_app.
  - change (pre ++ "{"%char :: "%"%char :: ws0 ++ name ++ args
              ++ ws1 ++ "%"%char :: "}"%char :: rest)
      with (pre ++ ("{"%char :: "%"%char :: ws0) ++ name ++ args
              ++ ws1 ++ "%"%char :: "}"%char :: rest).
    rewrite !app_assoc. apply occurs2_app.
Qed.

Lemma finditer_from_sorted whole :
  forall l pos skip,
    StronglySorted (fun m m' => m_end m <= m_start m')
                   (finditer_from whole pos skip l).
Proof.
  induction l as [| c t IH]; intros pos skip; cbn [finditer_from].
  - constructor.
  - destruct skip as [| k]; [| apply IH].
    destruct (match_here (c :: t)) as [r |] eqn:Hm; [| apply IH].
    constructor; [apply IH |].
    apply (TagFacts.finditer_from_ordered whole (c :: t) pos 0).
    cbn [finditer_from]. now rewrite Hm.
Qed.

(** ** A tag written out is the match *)

Lemma close_pattern (l : list ascii) :
  match l with
  | "%"%char :: "}"%char :: rest => Some rest
  | _ => None
  end
  = if opens_with_close l then Some (skipn 2 l) else None.
Proof.
  destruct l as [| x [| y r]].
  - reflexivity.
  - destruct x as [[] [] [] [] [] [] [] []]; reflexivity.
  - destruct x as [[] [] [] [] [] [] [] []]; try reflexivity;
      destruct y as [[] [] [] [] [] [] [] []]; reflexivity.
Qed.

Lemma close_tag_found (ws rest : list ascii) :
  all_space ws = true ->
  close_tag (ws ++ "%"%char :: "}"%char :: rest) = Some rest.
Proof.
  intros Hws. unfold close_tag.
  destruct (TagShape.take_while_app is_space ws
              ("%"%char :: "}"%char :: rest) Hws eq_refl) as [_ ->].
  reflexivity.
Qed.

Lemma close_tag_not_yet (ws w after : list ascii) :
  all_space ws = true -> w <> [] -> all_nonspace w = true ->
  opens_with_close w = false -> space_next after ->
  close_tag (ws ++ w ++ after) = None.
Proof.
  intros Hws Hne Hw Hopen Hafter. unfold close_tag.
  destruct w as [| c w']; [congruence |].
  cbn [all_nonspace forallb] in Hw. apply andb_true_iff in Hw as [Hc Hw'].
  destruct (TagShape.take_while_app is_space ws ((c :: w') ++ after) Hws)
    as [_ ->].
  { cbn [app]. unfold is_nonspace in Hc. now destruct (is_space c). }
  rewrite close_pattern.
  destruct w' as [| d w'']; cbn [app opens_with_close] in *.
  - destruct after as [| e after']; [reflexivity |].
    cbn [space_next] in Hafter.
    destruct (Ascii.eqb e "}") eqn:E.
    + apply Ascii.eqb_eq in E. subst e. discriminate.
    + now rewrite andb_false_r.
  - now rewrite Hopen.
Qed.

Lemma pieces_space_next pieces ws1 rest :
  forallb tag_piece pieces = true ->
  all_space ws1 = true ->
  pieces = [] \/ ws1 <> [] ->
  forall p ps, pieces = p :: ps ->
    space_next (pieces_text ps ++ ws1 ++ "%"%char :: "}"%char :: rest).
Proof.
  intros Hp Hws1 Hor p ps ->.
  destruct Hor as [? | Hne]; [discriminate |].
  destruct ps as [| [ws w] ps'].
  - cbn. destruct ws1 as [| c t]; [congruence |].
    cbn in *. now apply andb_true_iff in Hws1 as [-> _].
  - cbn [forallb] in Hp. apply andb_true_iff in Hp as [_ Hp].
    apply andb_true_iff in Hp as [Hq _].
    unfold tag_piece in Hq. cbn [fst snd] in Hq.
    destruct ws as [| c t]; [discriminate |].
    destruct w; [discriminate |].
    apply andb_true_iff in Hq as [Hq _].
    apply andb_true_iff in Hq as [Hq _].
    cbn in Hq |- *. now apply andb_true_iff in Hq as [-> _].
Qed.

Lemma tag_args_pieces (ws1 rest : list ascii) :
  all_space ws1 = true ->
  forall pieces fuel,
    forallb tag_piece pieces = true ->
    pieces = [] \/ ws1 <> [] ->
    length (pieces_text pieces ++ ws1 ++ "%"%char :: "}"%char :: rest)
    < fuel ->
    tag_args fuel (pieces_text pieces ++ ws1 ++ "%"%char :: "}"%char :: rest)
    = Some (pieces_text pieces, rest).
Proof.
  intros Hws1. induction pieces as [| [ws w] ps IH];
    intros fuel Hp Hor Hfuel.
  - destruct fuel; [lia |]. cbn [tag_args pieces_text map concat app].
    now rewrite close_tag_found.
  - pose proof (pieces_space_next _ ws1 rest Hp Hws1 Hor _ _ eq_refl)
      as Hnext.
    destruct Hor as [? | Hne]; [discriminate |].
    cbn [forallb] in Hp. apply andb_true_iff in Hp as [Hq Hps].
    unfold tag_piece in Hq. cbn [fst snd] in Hq.
    destruct ws as [| s0 ws']; [discriminate |].
    destruct w as [| c0 w']; [discriminate |].
    apply andb_true_iff in Hq as [Hq Hclose].
    apply andb_true_iff in Hq as [Hws Hw].
    apply negb_true_iff in Hclose.
    destruct fuel as [| fuel]; [lia |].
    change (pieces_text (((s0 :: ws'), (c0 :: w')) :: ps))
      with (((s0 :: ws') ++ (c0 :: w')) ++ pieces_text ps) in *.
    set (after := pieces_text ps ++ ws1 ++ "%"%char :: "}"%char :: rest)
      in *.
    assert (Heq : (((s0 :: ws') ++ c0 :: w') ++ pieces_text ps)
                  ++ ws1 ++ "%"%char :: "}"%char :: rest
                  = (s0 :: ws') ++ (c0 :: w') ++ after).
    { unfold after. now rewrite <- !app_assoc. }
    rewrite Heq in *. cbn [tag_args].
    rewrite (close_tag_not_yet (s0 :: ws') (c0 :: w') after Hws
               ltac:(discriminate) Hw Hclose Hnext).
    destruct (TagShape.take_while_app is_space (s0 :: ws')
                ((c0 :: w') ++ after) Hws) as [-> ->].
    { cbn [app]. cbn [all_nonspace forallb] in Hw.
      apply andb_true_iff in Hw as [Hc _].
      unfold is_nonspace in Hc. now destruct (is_space c0). }
    destruct (TagShape.take_while_app is_nonspace (c0 :: w') after Hw)
      as [-> _].
    { unfold space_next in Hnext. destruct after; [exact I |].
      unfold is_nonspace. now rewrite Hnext. }
    cbn [length].
    rewrite (skipn_app (S (length w')) (c0 :: w') after).
    rewrite (firstn_app (S (length w')) (c0 :: w') after).
    change (S (length w')) with (length (c0 :: w')).
    rewrite skipn_all, firstn_all, Nat.sub_diag.
    cbn [skipn firstn app].
    rewrite IH; try assumption.
    + now rewrite app_nil_r, <- !app_assoc.
    + now right.
    + rewrite !length_app in Hfuel. cbn [length] in Hfuel.
      unfold after in *. rewrite !length_app in *. cbn [length] in *. lia.
Qed.

Lemma match_here_tag (ws0 name : list ascii) pieces (ws1 rest : list ascii) :
  all_space ws0 = true ->
  name <> [] -> all_word name = true ->
  forallb tag_piece pieces = true ->
  all_space ws1 = true ->
  pieces = [] \/ ws1 <> [] ->
  match_here (tag_text ws0 name pieces ws1 ++ rest)
  = Some (string_of_list_ascii name,
          string_of_list_ascii (pieces_text pieces), rest).
Proof.
  intros H0 Hne Hname Hp H1 Hor.
  unfold tag_text. cbn [app match_here].
  set (X := pieces_text pieces ++ ws1 ++ "%"%char :: "}"%char :: rest).
  assert (Heq : (ws0 ++ name ++ pieces_text pieces ++ ws1
                   ++ ["%"%char; "}"%char]) ++ rest
                = ws0 ++ name ++ X).
  { unfold X. now rewrite <- !app_assoc. }
  rewrite Heq.
  destruct name as [| n0 name']; [congruence |].
  cbn [all_word forallb] in Hname.
  pose proof Hname as Hname'.
  apply andb_true_iff in Hname' as [Hn0 _].
  destruct (TagShape.take_while_app is_space ws0 ((n0 :: name') ++ X) H0)
    as [_ ->].
  { cbn [app]. now apply TagShape.word_not_space. }
  assert (Hx : match X with
               | [] => True
               | c :: _ => is_word c = false
               end).
  { unfold X. destruct pieces as [| [ws w] ps].
    - cbn. destruct ws1 as [| c t]; [reflexivity |].
      cbn in H1. apply andb_true_iff in H1 as [Hc _].
      now apply TagShape.space_not_word.
    - cbn [forallb] in Hp. apply andb_true_iff in Hp as [Hq _].
      unfold tag_piece in Hq. cbn [fst snd] in Hq.
      destruct ws as [| c t]; [discriminate |].
      destruct w; [discriminate |].
      apply andb_true_iff in Hq as [Hq _].
      apply andb_true_iff in Hq as [Hq _].
      cbn in Hq |- *. apply andb_true_iff in Hq as [Hc _].
      now apply TagShape.space_not_word. }
  destruct (TagShape.take_while_app is_word (n0 :: name') X Hname Hx)
    as [-> ->].
  unfold X. rewrite tag_args_pieces; auto.
Qed.

Lemma search_first whole :
  forall l pos m ms,
    finditer_from whole pos 0 l = m :: ms ->
    search_from whole pos l = Some m.
Proof.
  induction l as [| c t IH]; intros pos m ms H;
    cbn [finditer_from search_from] in *.
  - discriminate.
  - destruct (match_here (c :: t)) as [r |].
    + now injection H as <- _.
    + eapply IH. eassumption.
Qed.

End TagSearch.

Section TagPatternProperties.
Import TAG_PATTERN.

(** X1.  What [TAG_PATTERN.search] returns is a tag of the text: from
    [match.start()] on the text reads [{%], optional white space, the
    group [function] (one word character or more), the group [args],
    optional white space and [%}], and [match.end()] is where this
    stops. *)
Theorem X1_search_returns_a_tag (s : string) (m : tag_match) :
  search s = Some m ->
  exists pre ws0 ws1 rest,
    list_ascii_of_string s
    = pre ++ "{"%char :: "%"%char :: ws0
        ++ list_ascii_of_string (m_function m)
        ++ list_ascii_of_string (m_args m)
        ++ ws1 ++ "%"%char :: "}"%char :: rest
    /\ m_start m = length pre
    /\ m_end m = String.length s - length rest
    /\ all_space ws0 = true /\ all_space ws1 = true
    /\ m_function m <> ""
    /\ all_word (list_ascii_of_string (m_function m)) = true
    /\ m_string m = s.
Proof.
  unfold search. intros H.
  apply TagShape.search_from_inv in H
    as [pre [suf [[[f a] rest] [Hl [Hm ->]]]]].
  pose proof (TagFacts.match_here_length _ _ _ _ Hm) as Hlen.
  apply TagShape.match_here_shape in Hm
    as [ws0 [name [args [ws1 [-> [H0 [H1 [Hne [Hw [-> ->]]]]]]]]]].
  exists pre, ws0, ws1, rest.
  cbn [make_match m_start m_end m_string m_function m_args].
  rewrite !list_ascii_of_string_of_list_ascii.
  repeat split; auto.
  - rewrite <- (length_list_ascii s), Hl, !length_app. lia.
  - now apply TagShape.string_of_list_nonempty.
Qed.

(** X2.  The spans [re.sub] replaces in a text are not empty, lie in
    the text, and come one after the other without overlap. *)
Theorem X2_tag_spans_are_disjoint (s : string) :
  Forall (fun m => m_start m < m_end m /\ m_end m <= String.length s)
         (finditer s)
  /\ StronglySorted (fun m m' => m_end m <= m_start m') (finditer s).
Proof.
  split.
  - eapply Forall_impl; [| apply TagFacts.finditer_spans].
    cbv beta. intros m H. tauto.
  - apply TagSearch.finditer_from_sorted.
Qed.

(** X3.  A tag written with its name and its arguments, white space
    before each argument and before the close, no argument opening with
    the close of a tag: [TAG_PATTERN.search] on a text that starts with
    it returns this tag, with the name as group [function] and the
    arguments, white space included, as group [args]. *)
Theorem X3_written_tag_is_the_match
  (ws0 name : list ascii) pieces (ws1 rest : list ascii) :
  all_space ws0 = true ->
  name <> [] -> all_word name = true ->
  forallb tag_piece pieces = true ->
  all_space ws1 = true ->
  pieces = [] \/ ws1 <> [] ->
  search (string_of_list_ascii (tag_text ws0 name pieces ws1 ++ rest))
  = Some {| m_start := 0;
            m_end := length (tag_text ws0 name pieces ws1);
            m_string :=
              string_of_list_ascii (tag_text ws0 name pieces ws1 ++ rest);
            m_function := string_of_list_ascii name;
            m_args := string_of_list_ascii (pieces_text pieces) |}.
Proof.
  intros H0 Hne Hname Hp H1 Hor.
  unfold search. rewrite list_ascii_of_string_of_list_ascii.
  pose proof (TagSearch.match_here_tag ws0 name pieces ws1 rest
                H0 Hne Hname Hp H1 Hor) as Hm.
  destruct (tag_text ws0 name pieces ws1 ++ rest) as [| c t] eqn:E.
  - discriminate.
  - cbn [search_from]. rewrite Hm. unfold make_match. f_equal. f_equal.
    rewrite <- E, length_app. lia.
Qed.

End TagPatternProperties.

(* ================================================================== *)
(** * Further properties: ARG_PATTERN *)
(* ================================================================== *)

Module ArgShape.
Import ARG_PATTERN.

Lemma number_char_plain (c : ascii) :
  number_char c = true -> plain_char c = true.
Proof.
  destruct c as [[] [] [] [] [] [] [] []]; vm_compute; congruence.
Qed.

Lemma digit_number_char (c : ascii) :
  is_digit c = true -> number_char c = true.
Proof. unfold number_char. now intros ->. Qed.

Lemma after_refl (l : list ascii) : after_number_chars l l.
Proof. now exists []. Qed.

Lemma after_trans (a b c : list ascii) :
  after_number_chars a b -> after_number_chars b c ->
  after_number_chars a c.
Proof.
  intros [p [-> Hp]] [q [-> Hq]]. exists (p ++ q).
  rewrite <- app_assoc, forallb_app, Hp, Hq. auto.
Qed.

Lemma after_digits (l : list ascii) :
  after_number_chars l (drop_while is_digit l).
Proof.
  exists (take_while is_digit l). split.
  - symmetry. apply TagShape.take_drop_while.
  - pose proof (TagShape.take_while_all is_digit l) as H.
    rewrite forallb_forall in *. intros c Hc.
    apply digit_number_char. now apply H.
Qed.

Lemma after_cons (c : ascii) (l l' : list ascii) :
  number_char c = true -> after_number_chars l l' ->
  after_number_chars (c :: l) l'.
Proof.
  intros Hc [p [-> Hp]]. exists (c :: p). cbn. now rewrite Hc, Hp.
Qed.

Lemma after_minus (l : list ascii) :
  after_number_chars l
    (match l with
     | "-"%char :: t => t
     | _ => l
     end).
Proof.
  destruct l as [| c t]; [apply after_refl |].
  destruct c as [[] [] [] [] [] [] [] []];
    try apply after_refl.
  apply after_cons; [reflexivity | apply after_refl].
Qed.

Lemma after_sign (l : list ascii) :
  after_number_chars l
    (match l with
     | "+"%char :: u => u
     | "-"%char :: u => u
     | _ => l
     end).
Proof.
  destruct l as [| c t]; [apply after_refl |].
  destruct c as [[] [] [] [] [] [] [] []];
    try apply after_refl;
    (apply after_cons; [reflexivity | apply after_refl]).
Qed.

Lemma after_fraction (l2 : list ascii) :
  after_number_chars l2
    (match l2 with
     | "."%char :: t =>
         match take_while is_digit t with
         | [] => l2
         | _ :: _ => drop_while is_digit t
         end
     | _ => l2
     end).
Proof.
  destruct l2 as [| c t]; [apply after_refl |].
  destruct c as [[] [] [] [] [] [] [] []];
    try apply after_refl.
  destruct (take_while is_digit t); [apply after_refl |].
  apply after_cons; [reflexivity | apply after_digits].
Qed.

Lemma after_exponent (l3 : list ascii) :
  after_number_chars l3
    (match l3 with
     | e :: t =>
         if (code e =? 101) || (code e =? 69) then
           let t' := match t with
                     | "+"%char :: u => u
                     | "-"%char :: u => u
                     | _ => t
                     end in
           match take_while is_digit t' with
           | [] => l3
           | _ :: _ => drop_while is_digit t'
           end
         else l3
     | [] => l3
     end).
Proof.
  destruct l3 as [| e t]; [apply after_refl |].
  destruct ((code e =? 101) || (code e =? 69)) eqn:He;
    [| apply after_refl].
  cbv zeta.
  destruct (take_while is_digit _); [apply after_refl |].
  apply after_cons.
  - unfold number_char. cbn [existsb].
    apply orb_true_iff in He as [-> | ->];
      rewrite ?orb_true_r; reflexivity.
  - eapply after_trans; [apply after_sign | apply after_digits].
Qed.

(** A number of the first alternative is made of characters of a
    number, has one at least, and white space or the end follows. *)
Lemma number_shape (l r : list ascii) :
  number l = Some r ->
  exists p,
    l = p ++ r /\ p <> [] /\ forallb number_char p = true
    /\ at_space_or_end r = true.
Proof.
  unfold number. cbv zeta.
  pose proof (after_minus l) as H1.
  remember (match l with
            | "-"%char :: t => t
            | _ => l
            end) as l1 eqn:E1. clear E1.
  destruct l1 as [| c t]; [discriminate |].
  destruct (between 49 57 c
            || (code c =? 48)
               && match t with
                  | [] => true
                  | d :: _ => negb (is_digit d)
                  end) eqn:Hlead; [| discriminate].
  assert (Hc : is_digit c = true).
  { unfold is_digit, between in *.
    apply orb_true_iff in Hlead as [H | H].
    - apply andb_true_iff in H as [Ha Hb].
      apply Nat.leb_le in Ha, Hb. apply andb_true_iff.
      split; apply Nat.leb_le; lia.
    - apply andb_true_iff in H as [Ha _]. apply Nat.eqb_eq in Ha.
      rewrite Ha. reflexivity. }
  pose proof (after_fraction (drop_while is_digit (c :: t))) as H3.
  remember (match drop_while is_digit (c :: t) with
            | "."%char :: t0 =>
                match take_while is_digit t0 with
                | [] => drop_while is_digit (c :: t)
                | _ :: _ => drop_while is_digit t0
                end
            | _ => drop_while is_digit (c :: t)
            end) as l3 eqn:E3. clear E3.
  pose proof (after_exponent l3) as H4. cbv zeta in H4.
  remember (match l3 with
            | [] => l3
            | e :: t0 =>
                if (code e =? 101) || (code e =? 69)
                then
                  match
                    take_while is_digit
                      match t0 with
                      | "+"%char :: u => u
                      | "-"%char :: u => u
                      | _ => t0
                      end
                  with
                  | [] => l3
                  | _ :: _ =>
                      drop_while is_digit
                        match t0 with
                        | "+"%char :: u => u
                        | "-"%char :: u => u
                        | _ => t0
                        end
                  end
                else l3
            end) as l4 eqn:E4. clear E4.
  intros H.
  destruct (match l4 with
            | [] => true
            | c0 :: _ =>
                negb ((code c0 =? 58) || (code c0 =? 47) || is_digit c0)
            end && at_space_or_end l4) eqn:Hend; [| discriminate].
  injection H as <-.
  apply andb_true_iff in Hend as [_ Hend].
  assert (H2 : after_number_chars (c :: t) (drop_while is_digit (c :: t)))
    by apply after_digits.
  assert (Hmid : after_number_chars (c :: t) l4)
    by (eapply after_trans; [exact H2 |];
        eapply after_trans; eassumption).
  destruct (after_trans _ _ _ H1 Hmid) as [p [Hl Hp]].
  exists p. repeat split; auto.
  intros ->. cbn [app] in Hl. subst l.
  destruct Hmid as [q [Hq _]].
  (* [l4] is shorter than [c :: t]: the leading digit is consumed *)
  destruct H2 as [q2 [Hq2 _]].
  assert (Hshort : length l4 < length (c :: t)).
  { destruct H3 as [q3 [Hq3 _]]. destruct H4 as [q4 [Hq4 _]].
    pose proof (f_equal (@length ascii) Hq3) as L3.
    pose proof (f_equal (@length ascii) Hq4) as L4.
    rewrite length_app in L3, L4.
    assert (length (drop_while is_digit (c :: t)) < length (c :: t)).
    { cbn [drop_while]. rewrite Hc. cbn [length].
      pose proof (TagFacts.drop_while_length is_digit t). lia. }
    lia. }
  destruct H1 as [p1 [Hp1 _]].
  pose proof (f_equal (@length ascii) Hp1) as L1.
  rewrite length_app in L1. lia.
Qed.

Lemma number_is_bare (l r : list ascii) :
  number l = Some r -> quoted l = None /\ bare l = Some r.
Proof.
  intros H. apply number_shape in H as [p [-> [Hne [Hp Hr]]]].
  assert (Hplain : forallb plain_char p = true).
  { rewrite forallb_forall in *. intros c Hc.
    apply number_char_plain. now apply Hp. }
  assert (Hns : forallb is_nonspace p = true).
  { rewrite forallb_forall in *. intros c Hc.
    specialize (Hplain c Hc). unfold plain_char in Hplain.
    apply andb_true_iff in Hplain as [Hplain _].
    now apply andb_true_iff in Hplain as [Hplain _]. }
  split.
  - destruct p as [| c p']; [congruence |].
    cbn [forallb] in Hplain. apply andb_true_iff in Hplain as [Hc _].
    unfold plain_char in Hc. apply andb_true_iff in Hc as [Hc _].
    apply andb_true_iff in Hc as [_ Hc]. apply negb_true_iff in Hc.
    cbn [app quoted]. now rewrite Hc.
  - unfold bare.
    destruct (TagShape.take_while_app is_nonspace p r Hns) as [-> ->].
    { destruct r as [| c t]; [exact I |]. cbn in Hr.
      unfold is_nonspace. now rewrite Hr. }
    destruct p as [| c p']; [congruence |].
    assert (Hq : forallb (fun c0 => negb (is_dquote c0)
                                    && negb (is_backslash c0))
                         (c :: p') = true).
    { rewrite forallb_forall in *. intros x Hx.
      specialize (Hplain x Hx). unfold plain_char in Hplain.
      apply andb_true_iff in Hplain as [Hplain Hb].
      apply andb_true_iff in Hplain as [_ Hd]. now rewrite Hd, Hb. }
    now rewrite Hq.
Qed.

(** The first alternative never decides: what it matches, the third
    matches to the same extent. *)
Lemma match_here_without_number (l : list ascii) :
  match_here l = or_else (quoted l) (bare l).
Proof.
  unfold match_here. destruct (number l) as [r |] eqn:H.
  - apply number_is_bare in H as [-> ->]. reflexivity.
  - reflexivity.
Qed.

Lemma or_else_some {A : Type} (a b : option A) (r : A) :
  or_else a b = Some r -> a = Some r \/ b = Some r.
Proof. destruct a; simpl; auto. Qed.

(** One step of the body of a quoted token: the closing quote, or a
    piece of the body and the same question on a shorter text. *)
Lemma quoted_body_step (l r : list ascii) :
  quoted_body l = Some r ->
  (exists q, l = q :: r)
  \/ (exists t, quoted_body t = Some r /\ length t < length l).
Proof.
  intros H.
  destruct l as [| c0 t0]; [discriminate |].
  cbn [quoted_body] in H.
  apply or_else_some in H as [H | H].
  { destruct (is_dquote c0 && at_space_or_end t0); [| discriminate].
    injection H as <-. left. now exists c0. }
  apply or_else_some in H as [H | H]; [body_piece H |].
  apply or_else_some in H as [H | H]; [body_piece H |].
  apply or_else_some in H as [H | H].
  - destruct t0 as [| c1 t1]; [discriminate |].
    destruct c1 as [[] [] [] [] [] [] [] []]; try discriminate.
    body_piece H.
  - body_piece H.
Qed.

Lemma quoted_body_shorter (n : nat) :
  forall l r, length l <= n -> quoted_body l = Some r -> length r < length l.
Proof.
  induction n as [| n IH]; intros l r Hn H.
  - destruct l; [discriminate | cbn in Hn; lia].
  - apply quoted_body_step in H as [[q ->] | [t [Ht Hlen]]].
    + cbn [length]. lia.
    + assert (length r < length t) by (apply IH; [lia | exact Ht]). lia.
Qed.

Lemma match_here_shorter (l rest : list ascii) :
  match_here l = Some rest -> length rest < length l.
Proof.
  rewrite match_here_without_number. unfold or_else.
  destruct (quoted l) as [r |] eqn:Hq.
  - intros H. injection H as <-. unfold quoted in Hq.
    destruct l as [| q t]; [discriminate |].
    destruct (is_dquote q); [| discriminate].
    apply (quoted_body_shorter (length t)) in Hq; [cbn [length]; lia | lia].
  - unfold bare. intros H.
    destruct (take_while is_nonspace l) as [| c w] eqn:Hw; [discriminate |].
    destruct (forallb _ _); [| discriminate]. injection H as <-.
    pose proof (f_equal (@length ascii)
                  (TagShape.take_drop_while is_nonspace l)) as Hlen.
    rewrite length_app, Hw in Hlen. cbn [length] in Hlen. lia.
Qed.

(** ** Arguments written out are the tokens *)

Lemma space_not_dquote (c : ascii) : is_space c = true -> is_dquote c = false.
Proof.
  destruct c as [[] [] [] [] [] [] [] []]; vm_compute; congruence.
Qed.

Lemma space_next_bool (l : list ascii) :
  space_next l -> at_space_or_end l = true.
Proof. destruct l; simpl; auto. Qed.

Lemma match_here_space (c : ascii) (l : list ascii) :
  is_space c = true -> match_here (c :: l) = None.
Proof.
  intros Hc. rewrite match_here_without_number.
  unfold quoted, bare. rewrite (space_not_dquote c Hc).
  cbn [take_while or_else]. unfold is_nonspace. now rewrite Hc.
Qed.

Lemma findall_from_space (b : bool) (c : ascii) (l : list ascii) :
  is_space c = true -> findall_from b 0 (c :: l) = findall_from true 0 l.
Proof.
  intros Hc. cbn [findall_from]. rewrite (match_here_space c l Hc), Hc.
  now destruct b.
Qed.

Lemma findall_from_spaces (ws l : list ascii) :
  all_space ws = true -> ws <> [] ->
  forall b, findall_from b 0 (ws ++ l) = findall_from true 0 l.
Proof.
  induction ws as [| c t IH]; intros Hws Hne b; [congruence |].
  cbn in Hws. apply andb_true_iff in Hws as [Hc Ht].
  cbn [app]. rewrite (findall_from_space b c _ Hc).
  destruct t as [| d t']; [reflexivity |].
  apply IH; [exact Ht | discriminate].
Qed.

Lemma findall_from_skip (rest : list ascii) :
  space_next rest ->
  forall pre b b',
    findall_from b (length pre) (pre ++ rest) = findall_from b' 0 rest.
Proof.
  intros Hrest.
  assert (Hany : forall b b', findall_from b 0 rest = findall_from b' 0 rest).
  { intros b b'. destruct rest as [| c t]; [reflexivity |].
    cbn in Hrest. now rewrite !(findall_from_space _ c t Hrest). }
  induction pre as [| c t IH]; intros b b'; cbn [length app].
  - apply Hany.
  - cbn [findall_from]. apply IH.
Qed.

Lemma quoted_body_plain (body after : list ascii) :
  forallb unescaped_char body = true -> space_next after ->
  quoted_body (body ++ quote_char :: after) = Some after.
Proof.
  intros Hbody Hafter. induction body as [| c t IH]; cbn [app quoted_body].
  - change (is_dquote quote_char) with true.
    now rewrite (space_next_bool after Hafter).
  - cbn in Hbody. apply andb_true_iff in Hbody as [Hc Ht].
    unfold unescaped_char in Hc. rewrite Hc.
    apply andb_true_iff in Hc as [Hq _]. apply negb_true_iff in Hq.
    rewrite Hq, (IH Ht). reflexivity.
Qed.

Lemma match_here_written (ws : list ascii) (a : argument) (after : list ascii) :
  well_written (ws, a) = true -> space_next after ->
  match_here (written a ++ after) = Some after.
Proof.
  unfold well_written. cbn [fst snd]. intros H Hafter.
  apply andb_true_iff in H as [_ H].
  rewrite match_here_without_number.
  destruct a as [w | body]; cbn [written].
  - destruct w as [| c w']; [discriminate |].
    assert (Hns : forallb is_nonspace (c :: w') = true).
    { rewrite forallb_forall in *. intros x Hx. specialize (H x Hx).
      unfold plain_char in H. apply andb_true_iff in H as [H _].
      now apply andb_true_iff in H as [H _]. }
    assert (Hq : forallb (fun c0 => negb (is_dquote c0)
                                    && negb (is_backslash c0))
                         (c :: w') = true).
    { rewrite forallb_forall in *. intros x Hx. specialize (H x Hx).
      unfold plain_char in H. apply andb_true_iff in H as [H Hb].
      apply andb_true_iff in H as [_ Hd]. now rewrite Hd, Hb. }
    pose proof Hq as Hq'. cbn [forallb] in Hq'.
    apply andb_true_iff in Hq' as [Hc _].
    apply andb_true_iff in Hc as [Hc _]. apply negb_true_iff in Hc.
    unfold quoted, bare. cbn [app]. rewrite Hc.
    change (c :: w' ++ after) with ((c :: w') ++ after).
    destruct (TagShape.take_while_app is_nonspace (c :: w') after Hns)
      as [-> ->].
    { destruct after as [| x t]; [exact I |]. cbn in Hafter.
      unfold is_nonspace. now rewrite Hafter. }
    now rewrite Hq.
  - unfold quoted. cbn [app].
    change (is_dquote quote_char) with true. cbv iota.
    rewrite <- app_assoc. cbn [app].
    now rewrite (quoted_body_plain body after H Hafter).
Qed.

Lemma arguments_space_next (args : list (list ascii * argument)) :
  forallb well_written args = true -> space_next (arguments_text args).
Proof.
  destruct args as [| [ws a] rest]; [intros _; exact I |].
  cbn [forallb]. intros H. apply andb_true_iff in H as [H _].
  unfold well_written in H. cbn [fst snd] in H.
  apply andb_true_iff in H as [H _].
  destruct ws as [| c t]; [discriminate |].
  cbn in H |- *. now apply andb_true_iff in H as [-> _].
Qed.

Lemma written_nonempty (ws : list ascii) (a : argument) :
  well_written (ws, a) = true -> written a <> [].
Proof.
  unfold well_written. cbn [fst snd]. intros H.
  apply andb_true_iff in H as [_ H].
  destruct a as [[| c w] | body]; cbn; [discriminate | | ]; discriminate.
Qed.

Lemma findall_arguments :
  forall args b,
    forallb well_written args = true ->
    findall_from b 0 (arguments_text args)
    = map (fun p => string_of_list_ascii (written (snd p))) args.
Proof.
  induction args as [| [ws a] rest IH]; intros b Hall; [reflexivity |].
  cbn [forallb] in Hall. apply andb_true_iff in Hall as [Ha Hrest].
  pose proof (arguments_space_next rest Hrest) as Hnext.
  pose proof (match_here_written ws a _ Ha Hnext) as Hm.
  pose proof (written_nonempty ws a Ha) as Hne.
  change (arguments_text ((ws, a) :: rest))
    with ((ws ++ written a) ++ arguments_text rest).
  rewrite <- app_assoc.
  assert (Hws : all_space ws = true /\ ws <> []).
  { unfold well_written in Ha. cbn [fst snd] in Ha.
    apply andb_true_iff in Ha as [Ha _].
    destruct ws; [discriminate | split; [exact Ha | discriminate]]. }
  destruct Hws as [Hws Hwne].
  rewrite (findall_from_spaces ws _ Hws Hwne).
  cbn [map snd].
  destruct (written a) as [| c w']; [congruence |].
  cbn [app findall_from]. cbn [app] in Hm. rewrite Hm.
  assert (Hlen : length (c :: w' ++ arguments_text rest)
                 - length (arguments_text rest) = S (length w')).
  { cbn [length]. rewrite length_app. lia. }
  rewrite Hlen. cbn [Nat.sub]. rewrite Nat.sub_0_r.
  f_equal.
  - f_equal. change (c :: w' ++ arguments_text rest)
      with ((c :: w') ++ arguments_text rest).
    change (S (length w')) with (length (c :: w')).
    rewrite firstn_app, firstn_all, Nat.sub_diag. cbn [firstn].
    apply app_nil_r.
  - rewrite (findall_from_skip _ Hnext w' (is_space c) true).
    now apply IH.
Qed.

Lemma unquote_written (ws : list ascii) (a : argument) :
  well_written (ws, a) = true ->
  unquote (string_of_list_ascii (written a)) = passed a.
Proof.
  unfold well_written. cbn [fst snd]. intros H.
  apply andb_true_iff in H as [_ H].
  unfold unquote, passed. rewrite list_ascii_of_string_of_list_ascii.
  destruct a as [w | body]; cbn [written].
  - destruct w as [| c w']; [discriminate |].
    cbn [forallb] in H. apply andb_true_iff in H as [Hc _].
    unfold plain_char in Hc. apply andb_true_iff in Hc as [Hc _].
    apply andb_true_iff in Hc as [_ Hc]. apply negb_true_iff in Hc.
    now rewrite Hc.
  - change (is_dquote quote_char) with true. cbn [andb].
    change (quote_char :: body ++ [quote_char])
      with ((quote_char :: body) ++ [quote_char]).
    rewrite last_last. change (is_dquote quote_char) with true.
    now rewrite removelast_last.
Qed.

End ArgShape.

Section ArgPatternProperties.
Import ARG_PATTERN.

(** X4.  No token of [ARG_PATTERN.findall] is empty: the tests [x[0]]
    and [x[-1]] that [call_function] makes on each token never fail. *)
Theorem X4_argument_tokens_are_not_empty (s : string) :
  Forall (fun x => x <> "") (findall s).
Proof.
  unfold findall. generalize true, 0, (list_ascii_of_string s).
  intros after_space skip l. revert after_space skip.
  induction l as [| c t IH]; intros after_space skip; cbn [findall_from].
  - constructor.
  - destruct skip; [| apply IH].
    destruct after_space; [| apply IH].
    destruct (match_here (c :: t)) as [rest |] eqn:Hm; [| apply IH].
    constructor; [| apply IH].
    apply ArgShape.match_here_shorter in Hm. cbn [length] in Hm |- *.
    destruct (S (length t) - length rest) eqn:E; [lia |].
    discriminate.
Qed.

(** X5.  The first alternative of [ARG_PATTERN], the number, never
    decides what is matched: where it matches, the third alternative
    matches to the same extent, so that a number is passed on as the
    same text a bare token is. *)
Theorem X5_number_alternative_is_covered (l : list ascii) :
  match_here l = or_else (quoted l) (bare l).
Proof.
  unfold match_here. destruct (number l) as [r |] eqn:H.
  - apply ArgShape.number_is_bare in H as [Hq Hb].
    now rewrite Hq, Hb.
  - reflexivity.
Qed.

(** X6.  Arguments written with white space before each, a bare token
    of plain characters or a text between double quotes without quote
    and backslash: [call_function] passes them in their order, a bare
    token as it is, a quoted text without its quotes and with the white
    space it holds. *)
Theorem X6_written_arguments_are_passed (m : tag_match) args :
  forallb well_written args = true ->
  m_args m = string_of_list_ascii (arguments_text args) ->
  tag_arguments m = map (fun p => passed (snd p)) args.
Proof.
  intros Hall Hm. unfold tag_arguments, findall.
  rewrite Hm, list_ascii_of_string_of_list_ascii.
  rewrite (ArgShape.findall_arguments args true Hall), map_map.
  apply map_ext_in. intros [ws a] Hin. cbn [snd].
  rewrite forallb_forall in Hall.
  exact (ArgShape.unquote_written ws a (Hall _ Hin)).
Qed.

End ArgPatternProperties.

(* ================================================================== *)
(** * Further properties: the evaluator *)
(* ================================================================== *)

(** ** Equality of keys *)

Lemma key_eqb_sym (a b : node) : key_eqb a b = key_eqb b a.
Proof.
  destruct a, b; simpl; try reflexivity.
  - now destruct b, b0.
  - apply Z.eqb_sym.
  - apply String.eqb_sym.
  - apply Nat.eqb_sym.
Qed.

Lemma key_eqb_trans (a b c : node) :
  key_eqb a b = true -> key_eqb b c = true -> key_eqb a c = true.
Proof.
  destruct a, b, c; simpl; try discriminate; intros H1 H2;
    repeat match goal with
           | H : Bool.eqb _ _ = true |- _ => apply Bool.eqb_prop in H
           | H : (_ =? _)%Z = true |- _ => apply Z.eqb_eq in H
           | H : (_ =? _)%string = true |- _ => apply String.eqb_eq in H
           | H : (_ =? _) = true |- _ => apply Nat.eqb_eq in H
           end; subst;
    try reflexivity;
    try apply Bool.eqb_reflx; try apply Z.eqb_refl;
    try apply String.eqb_refl; try apply Nat.eqb_refl.
  all: try (apply Z.eqb_eq; destruct b0, b; simpl in *; congruence).
  all: try (destruct b, b0; simpl in *; reflexivity || discriminate).
Qed.

Lemma key_eqb_left (a b c : node) :
  key_eqb a b = true -> key_eqb a c = key_eqb b c.
Proof.
  intros H. destruct (key_eqb b c) eqn:Hbc.
  - eapply key_eqb_trans; eassumption.
  - destruct (key_eqb a c) eqn:Hac; [| reflexivity].
    rewrite key_eqb_sym in H.
    now rewrite (key_eqb_trans _ _ _ H Hac) in Hbc.
Qed.

(** ** Lookup after insertion *)

Lemma getitem_setitem (d : list (node * node)) (k v k' : node) :
  getitem (setitem d k v) k'
  = if key_eqb k k' then Some v else getitem d k'.
Proof.
  induction d as [| [k0 v0] d IH]; cbn [setitem getitem].
  - reflexivity.
  - destruct (key_eqb k0 k) eqn:E0; cbn [getitem].
    + rewrite (key_eqb_left _ _ k' E0).
      now destruct (key_eqb k k').
    + rewrite IH. destruct (key_eqb k0 k') eqn:E1; [| reflexivity].
      destruct (key_eqb k k') eqn:E2; [| reflexivity].
      rewrite key_eqb_sym in E2.
      now rewrite (key_eqb_trans _ _ _ E1 E2) in E0.
Qed.

Lemma getitem_app (d1 d2 : list (node * node)) (k : node) :
  getitem (d1 ++ d2) k
  = match getitem d1 k with
    | Some v => Some v
    | None => getitem d2 k
    end.
Proof.
  induction d1 as [| [k0 v0] d1 IH]; cbn [app getitem]; [reflexivity |].
  now destruct (key_eqb k0 k).
Qed.

Lemma getitem_fold (out : list (node * node)) :
  forall d k,
    getitem (fold_left (fun d kv => setitem d (fst kv) (snd kv)) out d) k
    = match getitem (rev out) k with
      | Some v => Some v
      | None => getitem d k
      end.
Proof.
  induction out as [| [k0 v0] out IH]; intros d k; cbn [fold_left rev].
  - reflexivity.
  - rewrite IH, getitem_app, getitem_setitem. cbn [fst snd getitem].
    destruct (getitem (rev out) k); [reflexivity |].
    now destruct (key_eqb k0 k).
Qed.

Lemma existsb_setitem (f : node -> bool) (d : list (node * node)) (k v : node) :
  existsb (fun kv => f (fst kv)) (setitem d k v) = true ->
  existsb (fun kv => f (fst kv)) d = true \/ f k = true.
Proof.
  induction d as [| [k0 v0] d IH]; cbn [setitem existsb fst].
  - rewrite orb_false_r. auto.
  - destruct (key_eqb k0 k); cbn [existsb fst].
    + auto.
    + intros H. apply orb_true_iff in H as [H | H].
      * left. now rewrite H.
      * apply IH in H as [H | H]; [left | right]; auto.
        rewrite H. apply orb_true_r.
Qed.

Lemma setitem_distinct (d : list (node * node)) (k v : node) :
  distinct_keys d = true -> distinct_keys (setitem d k v) = true.
Proof.
  induction d as [| [k0 v0] d IH]; cbn [setitem distinct_keys fst].
  - reflexivity.
  - intros H. apply andb_true_iff in H as [Hk Hd].
    destruct (key_eqb k0 k) eqn:E; cbn [distinct_keys fst].
    + now rewrite Hk, Hd.
    + rewrite (IH Hd), andb_true_r. apply negb_true_iff.
      apply negb_true_iff in Hk.
      destruct (existsb _ (setitem d k v)) eqn:Ex; [| reflexivity].
      apply (existsb_setitem (key_eqb k0)) in Ex as [Ex | Ex]; congruence.
Qed.

Lemma setitem_length (d : list (node * node)) (k v : node) :
  length d <= length (setitem d k v) <= S (length d).
Proof.
  induction d as [| [k0 v0] d IH]; cbn [setitem length]; [lia |].
  destruct (key_eqb k0 k); cbn [length]; lia.
Qed.

Lemma inserted_invariant (out : list (node * node)) :
  forall d,
    distinct_keys d = true ->
    let d' := fold_left (fun d kv => setitem d (fst kv) (snd kv)) out d in
    distinct_keys d' = true /\ length d' <= length d + length out.
Proof.
  induction out as [| [k v] out IH]; intros d Hd; cbn [fold_left length].
  - split; [exact Hd | lia].
  - destruct (IH (setitem d k v) (setitem_distinct d k v Hd)) as [H1 H2].
    cbv zeta in *. cbn [fst snd]. split; [exact H1 |].
    pose proof (setitem_length d k v). lia.
Qed.

Lemma pairs_evaluated_length {W : Type} (ev : evaluator W) iteration :
  forall pairs w out w',
    pairs_evaluated ev iteration pairs w out w' ->
    length out = length pairs.
Proof. induction 1; cbn [length]; congruence. Qed.

(** ** Exceptions raised by the function of a tag *)

Section FurtherFacts.
Context {W : Type} (rt : runtime W).

Lemma call_function_raises s allow iteration m f w e w1 :
  functions rt (m_function m) = Some f ->
  f (tag_arguments m) iteration w = (Raise e, w1) ->
  call_function rt (NStr s) allow iteration m w
  = (Raise (raised_by_call (m_function m) e), w1).
Proof.
  intros Hf Hcall.
  unfold call_function, except_AttributeError, bind, raise.
  rewrite Hf, Hcall. now destruct e.
Qed.

Lemma sub_loop_raises s allow iteration m after e w1 w2 :
  call_function rt (NStr s) allow iteration m w1 = (Raise e, w2) ->
  forall before w vs,
    calls_return rt iteration before w vs w1 ->
    forall i pieces,
      Re.sub_loop (call_function rt (NStr s) allow iteration) s i
        (before ++ m :: after) pieces w
      = (Raise e, w2).
Proof.
  intros Hm before w vs Hcalls.
  remember w1 as w1' eqn:Ew in Hcalls.
  induction Hcalls as [w | m0 ms f w v w' vs w'' Hf Hcall Hrest IH];
    intros i pieces; cbn [Re.sub_loop app]; subst.
  - now rewrite (bind_raise _ _ _ _ _ Hm).
  - destruct (call_function_returns rt s allow iteration _ _ _ _ _ Hf Hcall)
      as [v' Hv'].
    rewrite (bind_ret _ _ _ _ _ Hv'). now apply IH.
Qed.

Lemma text_raises s allow iteration before m after w vs w1 f e w2 :
  TAG_PATTERN.finditer s = before ++ m :: after ->
  calls_return rt iteration before w vs w1 ->
  functions rt (m_function m) = Some f ->
  f (tag_arguments m) iteration w1 = (Raise e, w2) ->
  Re.sub (call_function rt (NStr s) allow iteration) s w
  = (Raise (raised_by_call (m_function m) e), w2).
Proof.
  intros Hiter Hcalls Hf Hcall. unfold Re.sub. rewrite Hiter.
  eapply sub_loop_raises; [| exact Hcalls].
  eapply call_function_raises; eassumption.
Qed.

Lemma text_without_match fuel s allow iteration w :
  TAG_PATTERN.search s = None ->
  evaluate_parsed rt (S fuel) (NStr s) allow iteration w = (Ret (NStr s), w).
Proof.
  intros Hs. rewrite evaluate_parsed_str.
  unfold except_TypeError, Re.sub.
  rewrite (TagFacts.search_none_no_match s Hs).
  cbn [Re.sub_loop app Re.join].
  now rewrite Nat.sub_0_r, substring_all, append_empty_r.
Qed.

Lemma items_are_consumed (ev : evaluator W) :
  forall index items w vs w',
    items_evaluated ev index items w vs w' ->
    forall evaluated,
      consumed rt ev items index evaluated w (evaluated ++ vs) w'.
Proof.
  induction 1 as [index w | index x items w v w1 vs w2 Hx Hv _ IH];
    intros evaluated.
  - rewrite app_nil_r. constructor.
  - eapply consumed_item; [exact Hx | exact Hv |].
    rewrite Nat.add_1_r.
    replace (evaluated ++ v :: vs) with ((evaluated ++ [v]) ++ vs)
      by now rewrite <- app_assoc.
    apply IH.
Qed.

Lemma items_evaluated_length (ev : evaluator W) :
  forall index items w vs w',
    items_evaluated ev index items w vs w' -> length vs = length items.
Proof. induction 1; cbn [length]; congruence. Qed.

End FurtherFacts.

Lemma pieces_as_arguments (words : list (list ascii * list ascii)) :
  forallb bare_piece words = true ->
  forallb well_written (map (fun p => (fst p, Bare (snd p))) words) = true
  /\ arguments_text (map (fun p => (fst p, Bare (snd p))) words)
     = pieces_text words
  /\ map (fun p => passed (snd p))
         (map (fun p => (fst p, Bare (snd p))) words)
     = map (fun p => string_of_list_ascii (snd p)) words.
Proof.
  induction words as [| [ws w] t IH]; intros H; [now repeat split |].
  cbn [forallb] in H. apply andb_true_iff in H as [Hb Ht].
  destruct (IH Ht) as [H1 [H2 H3]]. repeat split.
  - cbn [map forallb fst snd]. rewrite H1, andb_true_r.
    unfold bare_piece in Hb. unfold well_written. cbn [fst snd] in *.
    destruct ws; [discriminate |]. destruct w; [discriminate |].
    apply andb_true_iff in Hb as [-> ->]. reflexivity.
  - unfold arguments_text, pieces_text in *. cbn [map concat fst snd written].
    now rewrite H2.
  - cbn [map fst snd passed]. now rewrite H3.
Qed.

(** ** The further properties *)

Section FurtherProperties.
Context {W : Type} (rt : runtime W).

(** X7.  A text without the two characters that open a tag, or without
    the two that close one, evaluates to itself and no function is
    called. *)
Theorem X7_text_without_tag_marks_is_unchanged fuel s allow iteration w :
  occurs2 "{" "%" (list_ascii_of_string s) = false
  \/ occurs2 "%" "}" (list_ascii_of_string s) = false ->
  evaluate_parsed rt (S fuel) (NStr s) allow iteration w = (Ret (NStr s), w).
Proof.
  intros H. apply text_without_match.
  destruct (TAG_PATTERN.search s) as [m |] eqn:Hs; [| reflexivity].
  apply TagSearch.search_marks in Hs as [H1 H2].
  destruct H as [H | H]; congruence.
Qed.

(** X8.  The function of a tag is in the module but raises
    [AttributeError] while it runs: the handler around the call takes it
    for a missing function, and the evaluation ends with the error of a
    call to a non-existent function, which names the function. *)
Theorem X8_attribute_error_reads_as_missing_function
  fuel s allow iteration before m after w vs w1 f msg w2 :
  TAG_PATTERN.finditer s = before ++ m :: after ->
  calls_return rt iteration before w vs w1 ->
  functions rt (m_function m) = Some f ->
  f (tag_arguments m) iteration w1 = (Raise (AttributeError msg), w2) ->
  evaluate_parsed rt (S fuel) (NStr s) allow iteration w
  = (Raise (nonexistent (m_function m)), w2).
Proof.
  intros Hiter Hcalls Hf Hcall.
  rewrite evaluate_parsed_str. unfold except_TypeError.
  now rewrite (text_raises rt s allow iteration _ _ _ _ _ _ _ _ _
                 Hiter Hcalls Hf Hcall).
Qed.

(** X9.  An exception raised by the function of a tag that is neither an
    [AttributeError] nor a [TypeError] is the outcome of the evaluation
    of the text, as it was raised; the tags after it are not
    resolved. *)
Theorem X9_other_exceptions_pass_through
  fuel s allow iteration before m after w vs w1 f e w2 :
  TAG_PATTERN.finditer s = before ++ m :: after ->
  calls_return rt iteration before w vs w1 ->
  functions rt (m_function m) = Some f ->
  f (tag_arguments m) iteration w1 = (Raise e, w2) ->
  is_AttributeError e = false ->
  is_TypeError e = false ->
  evaluate_parsed rt (S fuel) (NStr s) allow iteration w = (Raise e, w2).
Proof.
  intros Hiter Hcalls Hf Hcall Ha Ht.
  rewrite evaluate_parsed_str. unfold except_TypeError.
  rewrite (text_raises rt s allow iteration _ _ _ _ _ _ _ _ _
             Hiter Hcalls Hf Hcall).
  destruct e; try discriminate; reflexivity.
Qed.

(** X10.  The function of a tag raises [TypeError] in a text whose first
    tag is not the whole text: the handler meant for a value that is not
    a string calls the function of the first tag once more and returns
    the text form of its value alone; the text around the tags and the
    other tags are not in the result. *)
Theorem X10_type_error_falls_back_to_first_tag
  fuel s allow iteration before m after w vs w1 f msg w2 m0 ms f0 v0 w3 :
  TAG_PATTERN.finditer s = before ++ m :: after ->
  calls_return rt iteration before w vs w1 ->
  functions rt (m_function m) = Some f ->
  f (tag_arguments m) iteration w1 = (Raise (TypeError msg), w2) ->
  TAG_PATTERN.finditer s = m0 :: ms ->
  ~ spans_whole s m0 ->
  functions rt (m_function m0) = Some f0 ->
  f0 (tag_arguments m0) iteration w2 = (Ret v0, w3) ->
  evaluate_parsed rt (S fuel) (NStr s) allow iteration w
  = (Ret (NStr (py_str rt v0)), w3).
Proof.
  intros Hiter Hcalls Hf Hcall Hfirst Hnot Hf0 Hcall0.
  rewrite evaluate_parsed_str. unfold except_TypeError.
  rewrite (text_raises rt s allow iteration _ _ _ _ _ _ _ _ _
             Hiter Hcalls Hf Hcall).
  cbn [raised_by_call].
  unfold TAG_PATTERN.search, TAG_PATTERN.finditer in *.
  rewrite (TagSearch.search_first _ _ _ _ _ Hfirst).
  pose proof (TagFacts.finditer_spans s) as Hspans.
  unfold TAG_PATTERN.finditer in Hspans. rewrite Hfirst in Hspans.
  apply Forall_inv in Hspans as [_ [_ Hstr]].
  eapply call_function_embedded; eauto. now rewrite Hstr.
Qed.

(** X11.  A text that is one tag and nothing else, whose function
    returns a string: the function is called once and the string is the
    result. *)
Theorem X11_whole_tag_string_is_called_once
  fuel s allow iteration m f w t w1 :
  TAG_PATTERN.search s = Some m ->
  spans_whole s m ->
  functions rt (m_function m) = Some f ->
  f (tag_arguments m) iteration w = (Ret (NStr t), w1) ->
  evaluate_parsed rt (S fuel) (NStr s) allow iteration w
  = (Ret (NStr t), w1).
Proof.
  intros Hs Hw Hf Hcall.
  now rewrite (whole_tag_text rt fuel s allow iteration m f w _ w1
                 Hs Hw Hf Hcall).
Qed.

(** X12.  A text that is one tag and nothing else, whose function
    returns the same value, other than [None], each time it is called:
    the result is this value as it is, a number staying a number and a
    list a list. *)
Theorem X12_whole_tag_value_is_kept
  fuel s allow iteration m f w v w1 w2 :
  TAG_PATTERN.search s = Some m ->
  spans_whole s m ->
  functions rt (m_function m) = Some f ->
  f (tag_arguments m) iteration w = (Ret v, w1) ->
  f (tag_arguments m) iteration w1 = (Ret v, w2) ->
  v <> NNone ->
  evaluate_parsed rt (S fuel) (NStr s) allow iteration w
  = (Ret v, match v with
            | NStr _ => w1
            | _ => w2
            end).
Proof.
  intros Hs Hw Hf Hfirst Hsecond Hnone.
  rewrite (whole_tag_text rt fuel s allow iteration m f w v w1
             Hs Hw Hf Hfirst).
  assert (Hcall : call_function rt (NStr s) allow iteration m w1
                  = (Ret v, w2)).
  { eapply call_function_whole; eauto.
    now rewrite (whole_tag_string s m Hs Hw). }
  destruct v; try exact Hcall; [congruence | reflexivity].
Qed.

(** X13.  A sequence none of whose items evaluates to a callable: the
    result is the list of the evaluated items, as long as the sequence;
    the item at position [i] is evaluated with the iteration index [i],
    whatever the index the sequence itself is evaluated with. *)
Theorem X13_plain_sequence_item_by_item
  fuel items allow iteration w vs w' :
  items_evaluated (evaluate_parsed rt fuel) 0 items w vs w' ->
  evaluate_parsed rt (S fuel) (NList items) allow iteration w
  = (Ret (NList vs), w')
  /\ length vs = length items.
Proof.
  intros H. split.
  - rewrite evaluate_parsed_list, <- (app_nil_r items).
    rewrite (evaluate_array_consumed rt _ _ _ _ _ _ _
               (items_are_consumed rt _ _ _ _ _ _ H [])).
    reflexivity.
  - eapply items_evaluated_length. eassumption.
Qed.

(** X14.  An item of a sequence, not the last one, evaluates to a
    callable whose [parent_function] is neither [repeat] nor [random]:
    nothing is appended and nothing is raised; the loop goes on with
    the next item. *)
Theorem X14_other_controller_is_dropped
  fuel before x after allow iteration w evaluated w1 origin c w2 :
  consumed rt (evaluate_parsed rt fuel) before 0 [] w evaluated w1 ->
  evaluate_parsed rt fuel x true (Some (length before)) w1
  = (Ret (NCallable (Some origin) c), w2) ->
  origin <> "repeat" -> origin <> "random" ->
  after <> [] ->
  evaluate_parsed rt (S fuel) (NList (before ++ x :: after)) allow iteration w
  = evaluate_array rt (evaluate_parsed rt fuel) after (length before + 1)
      evaluated w2.
Proof.
  intros Hpre Hx Hrepeat Hrandom Hafter.
  rewrite evaluate_parsed_list.
  rewrite (evaluate_array_consumed rt _ _ _ _ _ _ _ Hpre).
  cbn [evaluate_array]. rewrite (bind_ret _ _ _ _ _ Hx).
  destruct after as [| next after']; [contradiction |].
  destruct (String.eqb_spec "repeat" origin) as [E | _]; [congruence |].
  destruct (String.eqb_spec "random" origin) as [E | _]; [congruence |].
  reflexivity.
Qed.

(** X15.  An item of a sequence evaluates to a callable that has no
    attribute [parent_function]: the evaluation ends with the
    [AttributeError] of the attribute access, at the last position as at
    any other. *)
Theorem X15_callable_without_origin_raises
  fuel before x after allow iteration w evaluated w1 c w2 :
  consumed rt (evaluate_parsed rt fuel) before 0 [] w evaluated w1 ->
  evaluate_parsed rt fuel x true (Some (length before)) w1
  = (Ret (NCallable None c), w2) ->
  evaluate_parsed rt (S fuel) (NList (before ++ x :: after)) allow iteration w
  = (Raise no_parent_function, w2).
Proof.
  intros Hpre Hx.
  rewrite evaluate_parsed_list.
  rewrite (evaluate_array_consumed rt _ _ _ _ _ _ _ Hpre).
  cbn [evaluate_array]. rewrite (bind_ret _ _ _ _ _ Hx).
  now destruct after.
Qed.

(** X16.  The second phase of a [repeat] fails: an exception it raises
    is the outcome of the sequence, and a result that cannot be iterated
    over ([None], a number, a boolean, a callable) ends the evaluation
    with a [TypeError]. *)
Theorem X16_repeat_second_phase_fails
  fuel before x next rest allow iteration w evaluated w1 c w2 :
  consumed rt (evaluate_parsed rt fuel) before 0 [] w evaluated w1 ->
  evaluate_parsed rt fuel x true (Some (length before)) w1
  = (Ret (NCallable (Some "repeat") c), w2) ->
  (forall e w3,
     invoke rt c next (evaluate_parsed rt fuel) w2 = (Raise e, w3) ->
     evaluate_parsed rt (S fuel) (NList (before ++ x :: next :: rest))
       allow iteration w
     = (Raise e, w3))
  /\ (forall r w3,
        invoke rt c next (evaluate_parsed rt fuel) w2 = (Ret r, w3) ->
        iterate r = None ->
        evaluate_parsed rt (S fuel) (NList (before ++ x :: next :: rest))
          allow iteration w
        = (Raise (TypeError "object is not iterable"), w3)).
Proof.
  intros Hpre Hx. split.
  - intros e w3 Hinv.
    rewrite evaluate_parsed_list.
    rewrite (evaluate_array_consumed rt _ _ _ _ _ _ _ Hpre).
    cbn [evaluate_array]. rewrite (bind_ret _ _ _ _ _ Hx).
    cbn [String.eqb Ascii.eqb Bool.eqb].
    now rewrite (bind_raise _ _ _ _ _ Hinv).
  - intros r w3 Hinv Hit.
    rewrite evaluate_parsed_list.
    rewrite (evaluate_array_consumed rt _ _ _ _ _ _ _ Hpre).
    cbn [evaluate_array]. rewrite (bind_ret _ _ _ _ _ Hx).
    cbn [String.eqb Ascii.eqb Bool.eqb].
    rewrite (bind_ret _ _ _ _ _ Hinv). now rewrite Hit.
Qed.

(** X17.  The pairs of a mapping evaluate to the pairs [out]: the
    result is a mapping whose keys differ from each other and which has
    no more pairs than the input; under each key it holds the value
    that was evaluated last for an equal key. *)
Theorem X17_mapping_keeps_last_value
  fuel pairs allow iteration w out w' :
  pairs_evaluated (evaluate_parsed rt fuel) iteration pairs w out w' ->
  exists d,
    evaluate_parsed rt (S fuel) (NDict pairs) allow iteration w
    = (Ret (NDict d), w')
    /\ distinct_keys d = true
    /\ length d <= length pairs
    /\ forall k, getitem d k = getitem (rev out) k.
Proof.
  intros Hpairs. exists (inserted out). repeat split.
  - rewrite evaluate_parsed_dict, <- (app_nil_r pairs).
    now rewrite (evaluate_object_pairs _ _ _ _ _ _ Hpairs).
  - now destruct (inserted_invariant out [] eq_refl).
  - destruct (inserted_invariant out [] eq_refl) as [_ H].
    cbv zeta in H. cbn [length] in H.
    rewrite (pairs_evaluated_length _ _ _ _ _ _ Hpairs) in H. exact H.
  - intros k. unfold inserted. rewrite getitem_fold.
    now destruct (getitem (rev out) k).
Qed.

(** X18.  A key of a mapping evaluates to a list or to a mapping: it
    cannot be a key, and the evaluation ends with a [TypeError], after
    the value of the pair has been evaluated. *)
Theorem X18_unhashable_key_raises
  fuel before k v after allow iteration w out w1 value w2 key w3 :
  pairs_evaluated (evaluate_parsed rt fuel) iteration before w out w1 ->
  evaluate_parsed rt fuel v false iteration w1 = (Ret value, w2) ->
  evaluate_parsed rt fuel k false iteration w2 = (Ret key, w3) ->
  hashable key = false ->
  evaluate_parsed rt (S fuel) (NDict (before ++ (k, v) :: after))
    allow iteration w
  = (Raise (TypeError "unhashable type"), w3).
Proof.
  intros Hpre Hv Hk Hh.
  rewrite evaluate_parsed_dict.
  rewrite (evaluate_object_pairs _ _ _ _ _ _ Hpre).
  cbn [evaluate_object]. rewrite (bind_ret _ _ _ _ _ Hv).
  rewrite (bind_ret _ _ _ _ _ Hk). now rewrite Hh.
Qed.

(** X19.  A text that is one tag, written with its name and with bare
    arguments separated by white space, whose function returns a string:
    the function is called once, with the arguments as strings in their
    order and with the iteration index, and the string is the result. *)
Theorem X19_written_tag_calls_function_with_arguments
  fuel (ws0 name : list ascii) words (ws1 : list ascii)
  allow iteration f w t w1 :
  all_space ws0 = true ->
  name <> [] -> all_word name = true ->
  forallb tag_piece words = true ->
  forallb bare_piece words = true ->
  all_space ws1 = true ->
  words = [] \/ ws1 <> [] ->
  functions rt (string_of_list_ascii name) = Some f ->
  f (map (fun p => string_of_list_ascii (snd p)) words) iteration w
  = (Ret (NStr t), w1) ->
  evaluate_parsed rt (S fuel)
    (NStr (string_of_list_ascii (tag_text ws0 name words ws1)))
    allow iteration w
  = (Ret (NStr t), w1).
Proof.
  intros H0 Hne Hname Htag Hbare H1 Hor Hf Hcall.
  pose proof (TagSearch.match_here_tag ws0 name words ws1 []
                H0 Hne Hname Htag H1 Hor) as Hm.
  rewrite app_nil_r in Hm.
  assert (Hs : TAG_PATTERN.search
                 (string_of_list_ascii (tag_text ws0 name words ws1))
               = Some {| m_start := 0;
                         m_end := length (tag_text ws0 name words ws1);
                         m_string :=
                           string_of_list_ascii
                             (tag_text ws0 name words ws1);
                         m_function := string_of_list_ascii name;
                         m_args :=
                           string_of_list_ascii (pieces_text words) |}).
  { unfold TAG_PATTERN.search.
    rewrite list_ascii_of_string_of_list_ascii.
    destruct (tag_text ws0 name words ws1) as [| c0 t0] eqn:E;
      [discriminate |].
    cbn [TAG_PATTERN.search_from]. rewrite Hm.
    unfold TAG_PATTERN.make_match. cbn [length].
    now rewrite Nat.sub_0_r. }
  destruct (pieces_as_arguments words Hbare) as [Hw [Htext Hpassed]].
  set (m := {| m_start := 0;
               m_end := length (tag_text ws0 name words ws1);
               m_string := string_of_list_ascii (tag_text ws0 name words ws1);
               m_function := string_of_list_ascii name;
               m_args := string_of_list_ascii (pieces_text words) |}) in *.
  assert (Hwhole : spans_whole
                     (string_of_list_ascii (tag_text ws0 name words ws1)) m).
  { split; cbn [m m_start m_end]; [reflexivity |].
    now rewrite <- length_list_ascii, list_ascii_of_string_of_list_ascii. }
  assert (Hargs : tag_arguments m
                  = map (fun p => string_of_list_ascii (snd p)) words).
  { rewrite <- Hpassed. unfold tag_arguments, ARG_PATTERN.findall.
    cbn [m m_args].
    rewrite <- Htext, list_ascii_of_string_of_list_ascii.
    rewrite (ArgShape.findall_arguments _ true Hw), map_map.
    apply map_ext_in. intros [ws a] Hin. cbn [snd].
    rewrite forallb_forall in Hw.
    exact (ArgShape.unquote_written ws a (Hw _ Hin)). }
  rewrite <- Hargs in Hcall.
  now rewrite (whole_tag_text rt fuel _ allow iteration m f w _ w1
                 Hs Hwhole Hf Hcall).
Qed.

End FurtherProperties.

(* ================================================================== *)
(** * The further properties on the sample modules *)
(* ================================================================== *)

Module FurtherRuns.

Lemma X1_witness_seq_tag :
  exists pre ws0 ws1 rest,
    list_ascii_of_string "id-{% seq %}"
    = pre ++ "{"%char :: "%"%char :: ws0
        ++ list_ascii_of_string "seq" ++ list_ascii_of_string ""
        ++ ws1 ++ "%"%char :: "}"%char :: rest
    /\ 3 = length pre
    /\ 12 = String.length "id-{% seq %}" - length rest
    /\ all_space ws0 = true /\ all_space ws1 = true
    /\ "seq" <> ""
    /\ all_word (list_ascii_of_string "seq") = true
    /\ "id-{% seq %}" = "id-{% seq %}".
Proof.
  exact (X1_search_returns_a_tag "id-{% seq %}"
           (TagMatch 3 12 "id-{% seq %}" "seq" "") eq_refl).
Defined.

Lemma X3_witness_repeat_3 :
  TAG_PATTERN.search "{% repeat 3 %} tail"
  = Some (TagMatch 0 14 "{% repeat 3 %} tail" "repeat" " 3").
Proof.
  refine (X3_written_tag_is_the_match sp (list_ascii_of_string "repeat")
            [(sp, ["3"%char])] sp (list_ascii_of_string " tail")
            _ _ _ _ _ _).
  - reflexivity.
  - discriminate.
  - reflexivity.
  - reflexivity.
  - reflexivity.
  - right. discriminate.
Defined.

Lemma X6_witness_three_arguments :
  tag_arguments
    (TagMatch 0 0 "" "f"
       (string_of_list_ascii
          (arguments_text
             [(sp, Bare ["3"%char]);
              (sp, Quoted (list_ascii_of_string "a b"));
              (sp, Bare ["x"%char])])))
  = ["3"; "a b"; "x"].
Proof.
  refine (X6_written_arguments_are_passed _
            [(sp, Bare ["3"%char]);
             (sp, Quoted (list_ascii_of_string "a b"));
             (sp, Bare ["x"%char])] _ _).
  - reflexivity.
  - reflexivity.
Defined.

Lemma X7_witness_percent_text :
  evaluate_parsed Sample.rt 1 (NStr "50% of {x} %}") false None 0
  = (Ret (NStr "50% of {x} %}"), 0).
Proof.
  refine (X7_text_without_tag_marks_is_unchanged Sample.rt 0 _ false None 0 _).
  left. reflexivity.
Defined.

Lemma X8_witness_attr :
  evaluate_parsed Faulty.rt 1 (NStr "a{% attr %}") false None 0
  = (Raise (nonexistent "attr"), 1).
Proof.
  refine (X8_attribute_error_reads_as_missing_function Faulty.rt 0
            "a{% attr %}" false None []
            (TagMatch 1 11 "a{% attr %}" "attr" "") [] 0 [] 0
            Faulty.attr "no such attribute" 1 _ _ _ _).
  - reflexivity.
  - apply calls_nil.
  - reflexivity.
  - reflexivity.
Defined.

Lemma X9_witness_boom :
  evaluate_parsed Faulty.rt 1 (NStr "{% seq %}-{% boom %}-{% seq %}")
    false None 0
  = (Raise (OtherException "ValueError"), 2).
Proof.
  refine (X9_other_exceptions_pass_through Faulty.rt 0
            "{% seq %}-{% boom %}-{% seq %}" false None
            [TagMatch 0 9 "{% seq %}-{% boom %}-{% seq %}" "seq" ""]
            (TagMatch 10 20 "{% seq %}-{% boom %}-{% seq %}" "boom" "")
            [TagMatch 21 30 "{% seq %}-{% boom %}-{% seq %}" "seq" ""]
            0 [NInt 7] 1 Faulty.boom (OtherException "ValueError") 2
            _ _ _ _ _ _).
  - reflexivity.
  - eapply (calls_cons Faulty.rt None _ [] Sample.seq);
      [reflexivity | reflexivity | apply calls_nil].
  - reflexivity.
  - reflexivity.
  - reflexivity.
  - reflexivity.
Defined.

Lemma X10_witness_text_lost :
  evaluate_parsed Faulty.rt 1 (NStr "a{% seq %}b{% typeerr %}") false None 0
  = (Ret (NStr "7"), 3).
Proof.
  refine (X10_type_error_falls_back_to_first_tag Faulty.rt 0
            "a{% seq %}b{% typeerr %}" false None
            [TagMatch 1 10 "a{% seq %}b{% typeerr %}" "seq" ""]
            (TagMatch 11 24 "a{% seq %}b{% typeerr %}" "typeerr" "")
            [] 0 [NInt 7] 1 Faulty.typeerr "unsupported operand" 2
            (TagMatch 1 10 "a{% seq %}b{% typeerr %}" "seq" "")
            [TagMatch 11 24 "a{% seq %}b{% typeerr %}" "typeerr" ""]
            Sample.seq (NInt 7) 3 _ _ _ _ _ _ _ _).
  - reflexivity.
  - eapply (calls_cons Faulty.rt None _ [] Sample.seq);
      [reflexivity | reflexivity | apply calls_nil].
  - reflexivity.
  - reflexivity.
  - reflexivity.
  - intros [H _]. discriminate H.
  - reflexivity.
  - reflexivity.
Defined.

Lemma X11_witness_name :
  evaluate_parsed Sample.rt 1 (NStr "{% name %}") false None 0
  = (Ret (NStr "Ada"), 1).
Proof.
  refine (X11_whole_tag_string_is_called_once Sample.rt 0 "{% name %}"
            false None (TagMatch 0 10 "{% name %}" "name" "")
            Sample.name 0 "Ada" 1 _ _ _ _).
  - reflexivity.
  - split; reflexivity.
  - reflexivity.
  - reflexivity.
Defined.

Lemma X12_witness_five :
  evaluate_parsed Faulty.rt 1 (NStr "{% five %}") false None 0
  = (Ret (NInt 5), 2).
Proof.
  refine (X12_whole_tag_value_is_kept Faulty.rt 0 "{% five %}"
            false None (TagMatch 0 10 "{% five %}" "five" "")
            Faulty.five 0 (NInt 5) 1 2 _ _ _ _ _ _).
  - reflexivity.
  - split; reflexivity.
  - reflexivity.
  - reflexivity.
  - reflexivity.
  - discriminate.
Defined.

Lemma X13_witness_positions :
  evaluate_parsed Sample.rt 2
    (NList [NStr "x{% index %}"; NInt 3; NStr "{% index %}"]) false None 0
  = (Ret (NList [NStr "x0"; NInt 3; NInt 2]), 3)
  /\ length [NStr "x0"; NInt 3; NInt 2]
     = length [NStr "x{% index %}"; NInt 3; NStr "{% index %}"].
Proof.
  refine (X13_plain_sequence_item_by_item Sample.rt 1 _ false None 0
            [NStr "x0"; NInt 3; NInt 2] 3 _).
  eapply items_cons; [reflexivity | reflexivity |].
  eapply items_cons; [reflexivity | reflexivity |].
  eapply items_cons; [reflexivity | reflexivity |].
  apply items_nil.
Defined.

Lemma X14_witness_shuffle :
  evaluate_parsed Faulty.rt 2 (NList [NStr "{% shuffle %}"; NStr "b"])
    false None 0
  = (Ret (NList [NStr "b"]), 2).
Proof.
  refine (X14_other_controller_is_dropped Faulty.rt 1 [] _ [NStr "b"]
            false None 0 [] 0 "shuffle" 7 2 _ _ _ _ _).
  - apply consumed_nil.
  - reflexivity.
  - discriminate.
  - discriminate.
  - discriminate.
Defined.

Lemma X15_witness_anon :
  evaluate_parsed Faulty.rt 2 (NList [NStr "{% anon %}"; NStr "b"])
    false None 0
  = (Raise no_parent_function, 2).
Proof.
  refine (X15_callable_without_origin_raises Faulty.rt 1 [] _ [NStr "b"]
            false None 0 [] 0 8 2 _ _).
  - apply consumed_nil.
  - reflexivity.
Defined.

Lemma X16_witness_badrepeat :
  evaluate_parsed Faulty.rt 2 (NList [NStr "{% badrepeat %}"; NStr "X"])
    false None 0
  = (Raise (TypeError "not a list"), 2).
Proof.
  refine (proj1 (X16_repeat_second_phase_fails Faulty.rt 1 [] _ (NStr "X")
                   [] false None 0 [] 0 0 2 _ _)
            (TypeError "not a list") 2 _).
  - apply consumed_nil.
  - reflexivity.
  - reflexivity.
Defined.

Lemma X17_witness_equal_keys :
  exists d,
    evaluate_parsed Sample.rt 2
      (NDict [(NStr "k{% seq %}", NStr "a"); (NStr "k7", NStr "b")])
      false None 0
    = (Ret (NDict d), 1)
    /\ distinct_keys d = true
    /\ length d <= 2
    /\ forall k,
         getitem d k
         = getitem (rev [(NStr "k7", NStr "a"); (NStr "k7", NStr "b")]) k.
Proof.
  refine (X17_mapping_keeps_last_value Sample.rt 1 _ false None 0
            [(NStr "k7", NStr "a"); (NStr "k7", NStr "b")] 1 _).
  eapply pairs_cons; [reflexivity | reflexivity | reflexivity |].
  eapply pairs_cons; [reflexivity | reflexivity | reflexivity |].
  apply pairs_nil.
Defined.

Lemma X18_witness_list_key :
  evaluate_parsed Faulty.rt 2 (NDict [(NStr "{% empty_list %}", NStr "v")])
    false None 0
  = (Raise (TypeError "unhashable type"), 2).
Proof.
  refine (X18_unhashable_key_raises Faulty.rt 1 [] _ _ [] false None 0
            [] 0 (NStr "v") 0 (NList []) 2 _ _ _ _).
  - apply pairs_nil.
  - reflexivity.
  - reflexivity.
  - reflexivity.
Defined.

Lemma X19_witness_join :
  evaluate_parsed Faulty.rt 1 (NStr "{% join a b %}") false None 0
  = (Ret (NStr "a,b"), 1).
Proof.
  refine (X19_written_tag_calls_function_with_arguments Faulty.rt 0
            sp (list_ascii_of_string "join")
            [(sp, ["a"%char]); (sp, ["b"%char])] sp
            false None Faulty.join 0 "a,b" 1 _ _ _ _ _ _ _ _ _).
  - reflexivity.
  - discriminate.
  - reflexivity.
  - reflexivity.
  - reflexivity.
  - reflexivity.
  - right. discriminate.
  - reflexivity.
  - reflexivity.
Defined.

End FurtherRuns.
